(** * IELTS answer form: scoring, banding, answer-key parsing, saving

    A shallow embedding of the logic of [qt_app/src/SectionPanel.cpp] and
    [qt_app/src/MainWindow.cpp].

    - A [QString] is its sequence of UTF-16 code units.
    - The Qt calls the two files make ([trimmed], [toLower], [startsWith],
      [split], [toInt], [QRegularExpression]) are embedded with the behaviour
      Qt documents for them.  The case tables carry the Basic Latin and
      Latin-1 Supplement rows; other code units are left as they are, so what
      is proved of letter case is stated for U+0000..U+00FF.  A pattern is
      matched against well-formed UTF-16 only, as [QRegularExpression] does
      with its default options.
    - [int] is [Z]; the only arithmetic on it is counting up to a vector
      size.  [double] is the kernel's binary64 [float].
    - [QMap<int, QString>] is [gmap Z QString].
    - A slot of the window is a function on the state of the window that
      also returns the message boxes it shows; the way a dialog ends is an
      argument of the slot. *)

From Stdlib Require Import PrimFloat SpecFloat FloatOps ZArith NArith String Ascii Lia.
From stdpp Require Import base option list gmap strings.

Local Open Scope N_scope.

(** ** Qt strings *)

Abbreviation QChar := N (only parsing).
Abbreviation QString := (list N) (only parsing).

(** A literal of the source, as code units. *)
Definition qs (s : string) : QString := N_of_ascii <$> list_ascii_of_string s.

Definition in_range (lo hi c : QChar) : bool := (lo <=? c) && (c <=? hi).

(** [QChar::isSpace]: the ASCII controls 9..13, the space, U+0085, U+00A0
    and the Unicode separators (categories Zs, Zl, Zp). *)
Definition isSpace (c : QChar) : bool :=
  (c =? 32) || in_range 9 13 c || (c =? 133) || (c =? 160)
  || (c =? 5760) || in_range 8192 8202 c || (c =? 8232) || (c =? 8233)
  || (c =? 8239) || (c =? 8287) || (c =? 12288).

(** [QChar::toLower], rows U+0000..U+00FF: exact on these code units.  Qt
    lowers the cased letters beyond them too; here they are left as they
    are. *)
Definition toLowerChar (c : QChar) : QChar :=
  if in_range 65 90 c || (in_range 192 222 c && negb (c =? 215)) then c + 32 else c.

(** [QChar::toCaseFolded]: as [toLowerChar] on those rows, but for the
    micro sign U+00B5, folded onto U+03BC; and the two code units beyond
    them that fold onto ASCII letters, U+017F (long s) and U+212A (Kelvin
    sign). *)
Definition foldCase (c : QChar) : QChar :=
  if c =? 181 then 956
  else if c =? 383 then 115
  else if c =? 8490 then 107
  else toLowerChar c.

Definition toLower (s : QString) : QString := toLowerChar <$> s.

Definition isEmpty (s : QString) : bool :=
  match s with [] => true | _ :: _ => false end.

(** The longest prefix in a class, and what follows it. *)
Fixpoint takeWhile (p : QChar → bool) (s : QString) : QString :=
  match s with
  | c :: s' => if p c then c :: takeWhile p s' else []
  | [] => []
  end.

Fixpoint dropWhile (p : QChar → bool) (s : QString) : QString :=
  match s with
  | c :: s' => if p c then dropWhile p s' else s
  | [] => []
  end.

(** [QString::trimmed]: whitespace in the sense of [isSpace] is removed from
    both ends. *)
Definition trimmed (s : QString) : QString :=
  reverse (dropWhile isSpace (reverse (dropWhile isSpace s))).

(** [QString::split(QChar)] with the default [Qt::KeepEmptyParts]. *)
Fixpoint split (sep : QChar) (s : QString) : list QString :=
  match s with
  | [] => [[]]
  | c :: s' =>
      if c =? sep then [] :: split sep s'
      else match split sep s' with
           | p :: ps => (c :: p) :: ps
           | [] => [[c]]
           end
  end.

(** [QString::startsWith(needle, Qt::CaseInsensitive)] compares case-folded
    code units. *)
Fixpoint startsWith_ci (needle s : QString) : bool :=
  match needle, s with
  | [], _ => true
  | n :: needle', c :: s' => (foldCase c =? foldCase n) && startsWith_ci needle' s'
  | _ :: _, [] => false
  end.

(** [QString::startsWith(QChar)]. *)
Definition startsWithChar (ch : QChar) (s : QString) : bool :=
  match s with c :: _ => c =? ch | [] => false end.

Definition INT_MAX : Z := 2147483647.

Definition digitValue (c : QChar) : option Z :=
  if in_range 48 57 c then Some (Z.of_N c - 48)%Z else None.

Fixpoint toInt_acc (acc : Z) (s : QString) : option Z :=
  match s with
  | [] => Some acc
  | c :: s' => d ← digitValue c; toInt_acc (10 * acc + d)%Z s'
  end.

(** [QString::toInt(&ok)] on the strings that reach it here, the [\d+]
    pieces of a matched line: [None] stands for [ok == false] (no digits, a
    foreign character, or a value that does not fit an [int]). *)
Definition toInt (s : QString) : option Z :=
  match s with
  | [] => None
  | _ :: _ => v ← toInt_acc 0 s; if bool_decide (v ≤ INT_MAX)%Z then Some v else None
  end.

(** [QString::number(int)] / [QTextStream << int] for a non-negative value:
    decimal digits, most significant first. *)
Fixpoint digits_acc (fuel : nat) (n : N) (acc : QString) : QString :=
  match fuel with
  | O => acc
  | S fuel' =>
      let acc' := (48 + n mod 10) :: acc in
      if n / 10 =? 0 then acc' else digits_acc fuel' (n / 10) acc'
  end.

Definition number (n : Z) : QString :=
  digits_acc (S (N.to_nat (N.log2 (Z.to_N n)))) (Z.to_N n) [].

(** [QChar::isHighSurrogate], [QChar::isLowSurrogate] *)
Definition isHighSurrogate (c : QChar) : bool := in_range 55296 56319 c.
Definition isLowSurrogate (c : QChar) : bool := in_range 56320 57343 c.
Definition isSurrogate (c : QChar) : bool := isHighSurrogate c || isLowSurrogate c.

(** ** Regular expressions

    [QRegularExpression] is a backtracking matcher.  [run] lists the ways a
    pattern can match at a position in the order the matcher tries them, so
    the match it reports is the head of the list.  The patterns of this
    program use classes, [^], [$], concatenation, greedy [*] and [+], and
    numbered groups.  Without [UseUnicodePropertiesOption] the classes [\s]
    and [\d] are the ASCII ones.

    The program matches with the default options, so the matcher first
    checks that the subject is well-formed UTF-16, and finds no match in a
    subject that holds an unpaired surrogate. *)

Module Regex.

(** The check of the subject: every high surrogate is followed by a low
    one, and every low surrogate follows a high one. *)
Fixpoint validUtf16 (s : QString) : bool :=
  match s with
  | [] => true
  | c :: s' =>
      if isHighSurrogate c then
        match s' with
        | d :: s'' => isLowSurrogate d && validUtf16 s''
        | [] => false
        end
      else if isLowSurrogate c then false
      else validUtf16 s'
  end.

Inductive pattern : Type :=
| Class (p : QChar → bool)
| Bol
| Eol
| Seq (a b : pattern)
| Star (a : pattern)
| Capture (k : nat) (a : pattern).

Definition Plus (a : pattern) : pattern := Seq a (Star a).

Record mstate : Type := MState {
  m_pos : nat;                      (* offset in the subject *)
  m_rest : QString;                 (* the subject from that offset on *)
  m_caps : list (nat * QString)     (* groups closed so far, latest first *)
}.

(** Greedy iteration: one more round first, then stopping here.  A round
    that consumes nothing ends the iteration. *)
Fixpoint star_loop (step : mstate → list mstate) (fuel : nat) (st : mstate)
    : list mstate :=
  match fuel with
  | O => [st]
  | S fuel' =>
      (st1 ← step st;
       if bool_decide (m_pos st < m_pos st1)%nat then star_loop step fuel' st1 else [st1])
      ++ [st]
  end.

Fixpoint run (r : pattern) (st : mstate) : list mstate :=
  match r with
  | Class p =>
      match m_rest st with
      | c :: s' => if p c then [MState (S (m_pos st)) s' (m_caps st)] else []
      | [] => []
      end
  | Bol => if bool_decide (m_pos st = 0%nat) then [st] else []
  | Eol =>
      match m_rest st with
      | [] => [st]
      | [10] => [st]
      | _ => []
      end
  | Seq a b => st1 ← run a st; run b st1
  | Star a => star_loop (run a) (S (length (m_rest st))) st
  | Capture k a =>
      st1 ← run a st;
      [MState (m_pos st1) (m_rest st1)
         ((k, take (m_pos st1 - m_pos st) (m_rest st)) :: m_caps st1)]
  end.

(** The first match at or after [pos]: the text skipped before it and the
    state at its end. *)
Fixpoint exec (r : pattern) (pos : nat) (s : QString) : option (QString * mstate) :=
  match run r (MState pos s []) with
  | st :: _ => Some ([], st)
  | [] =>
      match s with
      | [] => None
      | c :: s' => prod_map (cons c) id <$> exec r (S pos) s'
      end
  end.

(** [QRegularExpression::match(subject)] *)
Definition match_ (r : pattern) (subject : QString) : option mstate :=
  if validUtf16 subject then snd <$> exec r 0 subject else None.

(** [QRegularExpressionMatch::captured(k)] *)
Fixpoint assoc (k : nat) (caps : list (nat * QString)) : QString :=
  match caps with
  | [] => []
  | (k', v) :: caps' => if bool_decide (k' = k) then v else assoc k caps'
  end.

Definition captured (k : nat) (st : mstate) : QString := assoc k (m_caps st).

(** The pieces of the subject between successive matches
    ([QRegularExpression::globalMatch]).  The next search starts where the
    last match ended; after an empty match it starts one code unit on. *)
Fixpoint pieces (fuel : nat) (r : pattern) (pos : nat) (s : QString) : list QString :=
  match fuel with
  | O => [s]
  | S fuel' =>
      match exec r pos s with
      | None => [s]
      | Some (before, st) =>
          if bool_decide (pos + length before < m_pos st)%nat
          then before :: pieces fuel' r (m_pos st) (m_rest st)
          else match m_rest st with
               | [] => [before; []]
               | c :: s' =>
                   match pieces fuel' r (S (m_pos st)) s' with
                   | p :: ps => before :: (c :: p) :: ps
                   | [] => [before; [c]]
                   end
               end
      end
  end.

(** The pieces of a whole subject; a subject that is not well-formed has
    no match in it and is one piece. *)
Definition parts (r : pattern) (s : QString) : list QString :=
  if validUtf16 s then pieces (S (length s)) r 0 s else [s].

(** [QString::split(re, behavior)] *)
Definition split_re (r : pattern) (skipEmptyParts : bool) (s : QString) : list QString :=
  let ps := parts r s in
  if skipEmptyParts then filter (λ p, isEmpty p = false) ps else ps.

(** [QString::replace(re, after)] for an [after] without back-references. *)
Definition replace (r : pattern) (after : QString) (s : QString) : QString :=
  match parts r s with
  | [] => []
  | p :: ps => p ++ concat ((λ q, after ++ q) <$> ps)
  end.

Definition re_space (c : QChar) : bool := in_range 9 13 c || (c =? 32).  (* \s *)
Definition re_digit (c : QChar) : bool := in_range 48 57 c.              (* \d *)
Definition re_dot (c : QChar) : bool := negb (c =? 10).                   (* .  *)
Definition lit (ch : QChar) (c : QChar) : bool := c =? ch.

End Regex.

Import Regex.

(** ** SectionPanel.cpp *)

(** The pattern [[\s\-]+]. *)
Definition normalizeRe : pattern :=
  Plus (Class (λ c, re_space c || lit 45 c)).

Definition normalizeAnswer (raw : QString) : QString :=
  let cleaned := toLower (trimmed raw) in
  replace normalizeRe [] cleaned.

Record GroupSpec : Type := { title : QString; count : Z }.

(** The panel's widgets, by what the code reads and writes of them: the
    text of each line edit and of each status label. *)
Record SectionPanel : Type := {
  sectionName_ : QString;
  groups_ : list GroupSpec;
  userEdits_ : list QString;
  keyEdits_ : list QString;
  statusLabels_ : list QString;
  keysVisible_ : bool
}.

(** [buildGrid] appends one user edit, one key edit and one status label per
    question, all empty. *)
Definition buildGrid (sectionName : QString) (groups : list GroupSpec) : SectionPanel :=
  let rows := mjoin ((λ g, replicate (Z.to_nat (count g)) ([] : QString)) <$> groups) in
  {| sectionName_ := sectionName; groups_ := groups;
     userEdits_ := rows; keyEdits_ := rows; statusLabels_ := rows;
     keysVisible_ := true |}.

Definition answers (p : SectionPanel) : list QString := trimmed <$> userEdits_ p.
Definition answerKeys (p : SectionPanel) : list QString := trimmed <$> keyEdits_ p.
Definition questionCount (p : SectionPanel) : Z := Z.of_nat (length (userEdits_ p)).

Definition setStatus (i : nat) (text : QString) (p : SectionPanel) : SectionPanel :=
  {| sectionName_ := sectionName_ p; groups_ := groups_ p;
     userEdits_ := userEdits_ p; keyEdits_ := keyEdits_ p;
     statusLabels_ := <[i := text]> (statusLabels_ p);
     keysVisible_ := keysVisible_ p |}.

Definition checkMark : QString := [10003].  (* U+2713 *)
Definition crossMark : QString := [10007].  (* U+2717 *)

(** [QStringLiteral("<font color='%1'>%2</font>").arg(color, symbol)] *)
Definition statusText (ok : bool) : QString :=
  qs "<font color='" ++ (if ok then qs "green" else qs "red") ++ qs "'>"
  ++ (if ok then checkMark else crossMark) ++ qs "</font>".

(** One round of the loop of [evaluate].  An index outside one of the three
    vectors has no defined behaviour in the source: [None]. *)
Definition evaluate_step (i : nat) (acc : SectionPanel * (Z * Z))
    : option (SectionPanel * (Z * Z)) :=
  let '(p, (correct, evaluated)) := acc in
  _ ← statusLabels_ p !! i;
  keyEdit ← keyEdits_ p !! i;
  let key := trimmed keyEdit in
  if isEmpty key then Some (setStatus i [] p, (correct, evaluated))
  else
    let evaluated := (evaluated + 1)%Z in
    userEdit ← userEdits_ p !! i;
    let user := trimmed userEdit in
    let ok := bool_decide (normalizeAnswer user = normalizeAnswer key) in
    let p := setStatus i (statusText ok) p in
    Some (p, (if ok then (correct + 1)%Z else correct, evaluated)).

Fixpoint evaluate_loop (i : nat) (n : nat) (acc : SectionPanel * (Z * Z))
    : option (SectionPanel * (Z * Z)) :=
  match n with
  | O => Some acc
  | S n' => acc' ← evaluate_step i acc; evaluate_loop (S i) n' acc'
  end.

(** [SectionPanel::evaluate]: the panel afterwards and the pair
    (correct, evaluated). *)
Definition evaluate (p : SectionPanel) : option (SectionPanel * (Z * Z)) :=
  let total := length (userEdits_ p) in
  evaluate_loop 0 total (p, (0, 0)%Z).

(** The line edits of [buildGrid] have [setMaxLength(32)]:
    [QLineEdit::setText] keeps the first 32 code units of its argument. *)
Definition maxLength : nat := 32.

Definition setText (text : QString) : QString := take maxLength text.

(** [QLabel::clear] on every status label. *)
Definition resetFeedback (p : SectionPanel) : SectionPanel :=
  {| sectionName_ := sectionName_ p; groups_ := groups_ p;
     userEdits_ := userEdits_ p; keyEdits_ := keyEdits_ p;
     statusLabels_ := (λ _, []) <$> statusLabels_ p;
     keysVisible_ := keysVisible_ p |}.

(** [QLineEdit::clear] on every user edit, then [resetFeedback]. *)
Definition clearAnswers (p : SectionPanel) : SectionPanel :=
  resetFeedback
    {| sectionName_ := sectionName_ p; groups_ := groups_ p;
       userEdits_ := (λ _, []) <$> userEdits_ p; keyEdits_ := keyEdits_ p;
       statusLabels_ := statusLabels_ p;
       keysVisible_ := keysVisible_ p |}.

Definition clearKeys (p : SectionPanel) : SectionPanel :=
  resetFeedback
    {| sectionName_ := sectionName_ p; groups_ := groups_ p;
       userEdits_ := userEdits_ p; keyEdits_ := (λ _, []) <$> keyEdits_ p;
       statusLabels_ := statusLabels_ p;
       keysVisible_ := keysVisible_ p |}.

(** [setKeysVisible] records the flag and gives every key edit the echo
    mode that goes with it, [Normal] or [Password].  The echo mode is what an
    edit displays; [text()] is the same in both modes, and the mode of every
    key edit is the one of the flag. *)
Definition setKeysVisible (visible : bool) (p : SectionPanel) : SectionPanel :=
  {| sectionName_ := sectionName_ p; groups_ := groups_ p;
     userEdits_ := userEdits_ p; keyEdits_ := keyEdits_ p;
     statusLabels_ := statusLabels_ p;
     keysVisible_ := visible |}.

(** The loop of [applyParsedAnswers] over the key edits; [index] is its
    counter. *)
Fixpoint applyLoop (mapping : gmap Z QString) (index : nat) (edits : list QString)
    : list QString :=
  match edits with
  | [] => []
  | edit :: edits' =>
      let questionNumber := (Z.of_nat index + 1)%Z in
      match mapping !! questionNumber with
      | Some answer => setText answer
      | None => edit
      end :: applyLoop mapping (S index) edits'
  end.

Definition applyParsedAnswers (mapping : gmap Z QString) (p : SectionPanel) : SectionPanel :=
  resetFeedback
    {| sectionName_ := sectionName_ p; groups_ := groups_ p;
       userEdits_ := userEdits_ p; keyEdits_ := applyLoop mapping 0 (keyEdits_ p);
       statusLabels_ := statusLabels_ p;
       keysVisible_ := keysVisible_ p |}.

(** ** MainWindow.cpp *)

Definition kNumQuestions : Z := 40.

Definition listeningGroups : list GroupSpec :=
  (λ i : Z,
     let start := (i * 10 + 1)%Z in
     let end_ := (start + 9)%Z in
     {| title := qs "Listening Part " ++ number (i + 1) ++ qs " (Q" ++ number start
                 ++ qs "-" ++ number end_ ++ qs ")";
        count := 10 |}) <$> [0; 1; 2; 3]%Z.

Definition readingGroups : list GroupSpec :=
  [ {| title := qs "Reading Passage 1 (Q1-13)"; count := 13 |};
    {| title := qs "Reading Passage 2 (Q14-26)"; count := 13 |};
    {| title := qs "Reading Passage 3 (Q27-40)"; count := 14 |} ].

(** A [QPair<int, double>] of a band table. *)
Definition row (minCorrect : Z) (band : float) : Z * float := (minCorrect, band).

Definition listeningBandTable : list (Z * float) :=
  [ row 39 9.0; row 37 8.5; row 35 8.0; row 32 7.5; row 30 7.0;
    row 26 6.5; row 23 6.0; row 18 5.5; row 16 5.0; row 13 4.5;
    row 11 4.0; row 8 3.5;  row 6 3.0;  row 4 2.5;  row 0 2.0 ].

Definition readingBandTable : list (Z * float) :=
  [ row 39 9.0; row 37 8.5; row 35 8.0; row 33 7.5; row 30 7.0;
    row 27 6.5; row 23 6.0; row 19 5.5; row 15 5.0; row 13 4.5;
    row 10 4.0; row 8 3.5;  row 6 3.0;  row 4 2.5;  row 0 2.0 ].

(** The pattern of a data line, [^ \s* ( \d+ (?: & \d+ )* ) \s+ ( .+ ) $],
    written here with its tokens spaced. *)
Definition numbersRe : pattern :=        (* \d+ (?: & \d+ )* *)
  Seq (Plus (Class re_digit)) (Star (Seq (Class (lit 38)) (Plus (Class re_digit)))).

Definition lineRe : pattern :=
  Seq Bol
 (Seq (Star (Class re_space))
 (Seq (Capture 1 numbersRe)
 (Seq (Plus (Class re_space))
 (Seq (Capture 2 (Plus (Class re_dot)))
      Eol)))).

(** The separator of answers, [\s* , \s*]. *)
Definition commaRe : pattern :=
  Seq (Star (Class re_space)) (Seq (Class (lit 44)) (Star (Class re_space))).

(** The loop over [numberParts]; [i] is its index. *)
Fixpoint assign (answers : list QString) (i : nat) (numberParts : list QString)
    (mapping : gmap Z QString) : gmap Z QString :=
  match numberParts with
  | [] => mapping
  | part :: numberParts' =>
      assign answers (S i) numberParts'
        match toInt part with
        | None => mapping
        | Some qNum =>
            if bool_decide (qNum < 1 ∨ qNum > kNumQuestions)%Z then mapping
            else
              let answer := default (default [] (last answers)) (answers !! i) in
              <[qNum := trimmed answer]> mapping
        end
  end.

(** The body of the loop over the lines of the text. *)
Definition parseLine (mapping : gmap Z QString) (rawLine : QString) : gmap Z QString :=
  let line := trimmed rawLine in
  if isEmpty line then mapping
  else if startsWith_ci (qs "part") line || startsWith_ci (qs "passage") line
          || startsWithChar 40 line
  then mapping
  else
    match match_ lineRe line with
    | None => mapping
    | Some m =>
        let numbersToken := captured 1 m in
        let answersToken := trimmed (captured 2 m) in
        if isEmpty answersToken then mapping
        else
          let numberParts := split 38 numbersToken in
          let answers := split_re commaRe true answersToken in
          let answers := if bool_decide (answers = []) then [answersToken] else answers in
          assign answers 0 numberParts mapping
    end.

Definition parseAnswerText (text : QString) : gmap Z QString :=
  foldl parseLine ∅ (split 10 text).

Fixpoint scanTable (table : list (Z * float)) (correct : Z) : float :=
  match table with
  | [] => 0.0%float
  | entry :: table' =>
      if bool_decide (correct >= entry.1)%Z then entry.2 else scanTable table' correct
  end.

Definition lookupBand (sectionName : QString) (correct : Z) : float :=
  let table := if bool_decide (sectionName = qs "Listening")
               then listeningBandTable else readingBandTable in
  scanTable table correct.

Record MainWindow : Type := {
  currentIndex : Z;               (* of [stack_] *)
  listeningPanel_ : SectionPanel;
  readingPanel_ : SectionPanel
}.

Definition activePanel (w : MainWindow) : option (QString * SectionPanel) :=
  if bool_decide (currentIndex w = 1)%Z then Some (qs "Listening", listeningPanel_ w)
  else if bool_decide (currentIndex w = 2)%Z then Some (qs "Reading", readingPanel_ w)
  else None.

(** The loop of [saveAnswers] writing to the stream; [i] is its index. *)
Fixpoint writeAnswers (i : nat) (answers : list QString) : QString :=
  match answers with
  | [] => []
  | a :: answers' =>
      number (Z.of_nat i + 1) ++ qs "," ++ a ++ [10] ++ writeAnswers (S i) answers'
  end.

(** [MainWindow::saveAnswers]: what is written to the chosen file, or [None]
    when nothing is written (no active section, the dialog cancelled with an
    empty path, or the file not opened). *)
Definition saveAnswers (w : MainWindow) (filePath : QString) (opened : bool)
    : option QString :=
  '(sectionName, panel) ← activePanel w;
  if isEmpty filePath then None
  else if negb opened then None
  else Some (sectionName ++ [10] ++ writeAnswers 0 (answers panel)).

(** The window as a whole: the stack with its two panels, the score label,
    the text of the hide button and the flag it toggles. *)
Record Window : Type := {
  stack_ : MainWindow;
  scoreLabel_ : QString;
  hideButton_ : QString;
  answersHidden_ : bool
}.

(** A [QMessageBox] shown to the user, by the static function that opens
    it. *)
Inductive MessageBox : Type :=
| information (title text : QString)
| warning (title text : QString)
| critical (title text : QString).

Definition setCurrentIndex (idx : Z) (f : Window) : Window :=
  {| stack_ := {| currentIndex := idx;
                  listeningPanel_ := listeningPanel_ (stack_ f);
                  readingPanel_ := readingPanel_ (stack_ f) |};
     scoreLabel_ := scoreLabel_ f; hideButton_ := hideButton_ f;
     answersHidden_ := answersHidden_ f |}.

Definition updateScoreLabel (text : QString) (f : Window) : Window :=
  {| stack_ := stack_ f; scoreLabel_ := text; hideButton_ := hideButton_ f;
     answersHidden_ := answersHidden_ f |}.

(** What a slot does to the panel [activePanel] points to is done to the
    panel of the window. *)
Definition setActivePanel (panel : SectionPanel) (f : Window) : Window :=
  {| stack_ :=
       if bool_decide (currentIndex (stack_ f) = 1)%Z then
         {| currentIndex := currentIndex (stack_ f);
            listeningPanel_ := panel;
            readingPanel_ := readingPanel_ (stack_ f) |}
       else if bool_decide (currentIndex (stack_ f) = 2)%Z then
         {| currentIndex := currentIndex (stack_ f);
            listeningPanel_ := listeningPanel_ (stack_ f);
            readingPanel_ := panel |}
       else stack_ f;
     scoreLabel_ := scoreLabel_ f; hideButton_ := hideButton_ f;
     answersHidden_ := answersHidden_ f |}.

Definition applyKeyVisibility (f : Window) : Window :=
  let visible := negb (answersHidden_ f) in
  {| stack_ := {| currentIndex := currentIndex (stack_ f);
                  listeningPanel_ := setKeysVisible visible (listeningPanel_ (stack_ f));
                  readingPanel_ := setKeysVisible visible (readingPanel_ (stack_ f)) |};
     scoreLabel_ := scoreLabel_ f;
     hideButton_ := if visible then qs "Hide Answers" else qs "Show Answers";
     answersHidden_ := answersHidden_ f |}.

(** The constructor [MainWindow::MainWindow]. *)
Definition newMainWindow : Window :=
  applyKeyVisibility
    {| stack_ := {| currentIndex := 0;
                    listeningPanel_ := buildGrid (qs "Listening") listeningGroups;
                    readingPanel_ := buildGrid (qs "Reading") readingGroups |};
       scoreLabel_ := [];
       hideButton_ := qs "Hide Answers";
       answersHidden_ := false |}.

Definition showLanding (f : Window) : Window := updateScoreLabel [] (setCurrentIndex 0 f).
Definition startListening (f : Window) : Window := updateScoreLabel [] (setCurrentIndex 1 f).
Definition startReading (f : Window) : Window := updateScoreLabel [] (setCurrentIndex 2 f).

Definition toggleHideAnswers (f : Window) : Window :=
  applyKeyVisibility
    {| stack_ := stack_ f; scoreLabel_ := scoreLabel_ f; hideButton_ := hideButton_ f;
       answersHidden_ := negb (answersHidden_ f) |}.

(** [m * 2^e] in tenths, to the nearest whole number. *)
Definition tenths (m : positive) (e : Z) : Z :=
  if (0 <=? e)%Z then Z.pos m * 10 * 2 ^ e
  else (Z.pos m * 20 + 2 ^ (- e)) / 2 ^ (1 - e).

(** [QString::number(x, 'f', 1)] on the values that reach it here, which are
    finite and not negative: the decimal with one digit after the point. *)
Definition numberF1 (x : float) : QString :=
  let sign (s : bool) := if s then qs "-" else [] in
  match Prim2SF x with
  | S754_zero s => sign s ++ qs "0.0"
  | S754_infinity s => sign s ++ qs "inf"
  | S754_nan => qs "nan"
  | S754_finite s m e =>
      let t := tenths m e in
      sign s ++ number (t / 10) ++ qs "." ++ number (t mod 10)
  end.

(** [tr("%1: %2/%3 correct · Band %4").arg(sectionName).arg(correct)
    .arg(count).arg(QString::number(band, 'f', 1))]; the section names hold
    no place marker.  The middle dot is U+00B7. *)
Definition scoreText (sectionName : QString) (correct count : Z) (band : float) : QString :=
  sectionName ++ qs ": " ++ number correct ++ qs "/" ++ number count
  ++ qs " correct " ++ [183] ++ qs " Band " ++ numberF1 band.

Definition selectSection (text : QString) : MessageBox :=
  information (qs "Select a section") text.

(** [MainWindow::submitAnswers]: the window afterwards and the message boxes
    shown.  [None] as in [evaluate]. *)
Definition submitAnswers (f : Window) : option (Window * list MessageBox) :=
  match activePanel (stack_ f) with
  | None =>
      Some (f, [selectSection (qs "Choose Listening or Reading before submitting.")])
  | Some (sectionName, panel) =>
      let keys := answerKeys panel in
      if forallb isEmpty keys then
        Some (f, [warning (qs "Missing answer keys")
                    (qs "Fill or paste the correct answers before submitting.")])
      else
        '(panel, (correct, evaluated)) ← evaluate panel;
        let band := lookupBand sectionName correct in
        Some (updateScoreLabel
                (scoreText sectionName correct (questionCount panel) band)
                (setActivePanel panel f), [])
  end.

(** The loop of [previewAnswers]; [i] is its index. *)
Fixpoint previewLines (i : nat) (answers : list QString) : list QString :=
  match answers with
  | [] => []
  | a :: answers' =>
      (qs "Q" ++ number (Z.of_nat i + 1) ++ qs ": " ++ a) :: previewLines (S i) answers'
  end.

(** [QStringList::join(QChar)] *)
Definition join (sep : QChar) (parts : list QString) : QString :=
  match parts with
  | [] => []
  | part :: parts' => part ++ concat ((cons sep) <$> parts')
  end.

Definition previewAnswers (f : Window) : list MessageBox :=
  match activePanel (stack_ f) with
  | None => [selectSection (qs "Choose Listening or Reading first.")]
  | Some (_, panel) =>
      [information (qs "Preview") (join 10 (previewLines 0 (answers panel)))]
  end.

Definition clearActive (f : Window) : Window * list MessageBox :=
  match activePanel (stack_ f) with
  | None => (f, [selectSection (qs "Choose Listening or Reading first.")])
  | Some (_, panel) =>
      (updateScoreLabel [] (setActivePanel (clearKeys (clearAnswers panel)) f), [])
  end.

(** [MainWindow::pasteAnswerKeys].  [dialog] is how the dialog ended: [None]
    when it was not accepted, the plain text of its editor when it was. *)
Definition pasteAnswerKeys (dialog : option QString) (f : Window)
    : Window * list MessageBox :=
  match activePanel (stack_ f) with
  | None => (f, [selectSection (qs "Choose Listening or Reading first.")])
  | Some (_, panel) =>
      match dialog with
      | None => (f, [])
      | Some text =>
          let mapping := parseAnswerText text in
          if bool_decide (mapping = ∅) then
            (f, [warning (qs "No answers detected")
                   (qs "Make sure the text contains numbered lines.")])
          else
            (updateScoreLabel [] (setActivePanel (applyParsedAnswers mapping panel) f), [])
      end
  end.

(** The message boxes of [MainWindow::saveAnswers]; what it writes is
    [saveAnswers] above. *)
Definition saveAnswersBoxes (f : Window) (filePath : QString) (opened : bool)
    : list MessageBox :=
  match activePanel (stack_ f) with
  | None => [selectSection (qs "Choose Listening or Reading first.")]
  | Some _ =>
      if isEmpty filePath then []
      else if negb opened then
        [critical (qs "Unable to save") (qs "Could not write to " ++ filePath)]
      else []
  end.

(** ** Reference definitions

    What the words of the specification denote, for comparison with the
    code. *)

Inductive IeltsSection : Type := Listening | Reading.

(** The name [activePanel] passes on for a section. *)
Definition nameOf (s : IeltsSection) : QString :=
  match s with Listening => qs "Listening" | Reading => qs "Reading" end.

(** The band tables as the specification lists them (minCorrect, band). *)
Definition spec_band_table (s : IeltsSection) : list (Z * float) :=
  match s with
  | Listening =>
      [ row 39 9.0; row 37 8.5; row 35 8.0; row 32 7.5; row 30 7.0; row 26 6.5;
        row 23 6.0; row 18 5.5; row 16 5.0; row 13 4.5; row 11 4.0; row 8 3.5;
        row 6 3.0; row 4 2.5; row 0 2.0 ]
  | Reading =>
      [ row 39 9.0; row 37 8.5; row 35 8.0; row 33 7.5; row 30 7.0; row 27 6.5;
        row 23 6.0; row 19 5.5; row 15 5.0; row 13 4.5; row 10 4.0; row 8 3.5;
        row 6 3.0; row 4 2.5; row 0 2.0 ]
  end.

(** Strictly descending by [minCorrect]. *)
Definition descending (table : list (Z * float)) : Prop :=
  ∀ i j a b, table !! i = Some a → table !! j = Some b → (i < j)%nat → (b.1 < a.1)%Z.

(** The verdict a slot is left with. *)
Inductive Verdict : Type := NoVerdict | Correct | Incorrect.

Definition slotVerdict (slot : QString * QString) : Verdict :=
  let '(userAnswer, keyAnswer) := slot in
  if isEmpty keyAnswer then NoVerdict
  else if bool_decide (normalizeAnswer userAnswer = normalizeAnswer keyAnswer)
       then Correct else Incorrect.

Definition verdictText (v : Verdict) : QString :=
  match v with
  | NoVerdict => []
  | Correct => statusText true
  | Incorrect => statusText false
  end.

(** The slots of a panel in index order, each as (userAnswer, keyAnswer),
    the values [answers()] and [answerKeys()] report. *)
Definition slots (p : SectionPanel) : list (QString * QString) :=
  zip (answers p) (answerKeys p).

(** Slots whose key is not empty. *)
Definition countEvaluated (l : list (QString * QString)) : Z :=
  Z.of_nat (length (filter (λ s, isEmpty s.2 = false) l)).

(** Slots whose key is not empty and whose normalized answers agree. *)
Definition countCorrect (l : list (QString * QString)) : Z :=
  Z.of_nat (length (filter (λ s, isEmpty s.2 = false
                                 ∧ normalizeAnswer s.1 = normalizeAnswer s.2) l)).

(** Two strings that differ only in letter case, whitespace and hyphens:
    they align once whitespace and hyphens are skipped on either side and
    letters are compared without case. *)
Inductive differOnlyInCaseSpaceHyphen : QString → QString → Prop :=
| differ_nil : differOnlyInCaseSpaceHyphen [] []
| differ_skip_l c x y :
    isSpace c = true ∨ c = 45 →
    differOnlyInCaseSpaceHyphen x y → differOnlyInCaseSpaceHyphen (c :: x) y
| differ_skip_r c x y :
    isSpace c = true ∨ c = 45 →
    differOnlyInCaseSpaceHyphen x y → differOnlyInCaseSpaceHyphen x (c :: y)
| differ_case c d x y :
    toLowerChar c = toLowerChar d →
    differOnlyInCaseSpaceHyphen x y → differOnlyInCaseSpaceHyphen (c :: x) (d :: y).

(** A string whose whitespace is all ASCII whitespace. *)
Definition asciiSpaced (s : QString) : Prop :=
  Forall (λ c, isSpace c = true → re_space c = true) s.

(** [s] begins with [word] when letter case is ignored. *)
Definition beginsNoCase (word s : QString) : Prop :=
  ∃ pre rest, s = pre ++ rest ∧ toLower pre = word.

(** The lines the specification has the parser skip: empty once trimmed,
    a header ("part", "passage", "("), or no match for the line pattern. *)
Definition skippedLine (line : QString) : Prop :=
  trimmed line = []
  ∨ beginsNoCase (qs "part") (trimmed line)
  ∨ beginsNoCase (qs "passage") (trimmed line)
  ∨ (∃ rest, trimmed line = 40 :: rest)
  ∨ match_ lineRe (trimmed line) = None.

(** The parts with [sep] between them. *)
Definition joined (sep : QChar) (parts : list QString) : QString :=
  match parts with
  | [] => []
  | part :: parts' => part ++ concat ((cons sep) <$> parts')
  end.


(** A string without the longest suffix in a class. *)
Definition dropWhileEnd (p : QChar → bool) (s : QString) : QString :=
  reverse (dropWhile p (reverse s)).

(** A token without the ASCII whitespace around it. *)
Definition stripSpaces (s : QString) : QString :=
  dropWhileEnd re_space (dropWhile re_space s).

(** The answers of a segment: split on commas, whitespace around each
    dropped, empty ones left out; the whole segment if none is left. *)
Definition spec_answers (segment : QString) : list QString :=
  match filter (λ a, a ≠ []) (stripSpaces <$> split 44 segment) with
  | [] => [segment]
  | tokens => tokens
  end.

(** The entry of the number at position [i] of a line: its value if that is
    a question number, with the answer at the same position, or the last
    answer when the answers run out. *)
Definition spec_entry (answers : list QString) (i : nat) (number : QString)
    : option (Z * QString) :=
  n ← toInt number;
  if bool_decide (1 ≤ n ≤ 40)%Z
  then Some (n, trimmed (default (default [] (last answers)) (answers !! i)))
  else None.

Definition spec_entries (numbers answers : list QString) : list (Z * QString) :=
  omap id (imap (spec_entry answers) numbers).

(** The mapping of a list of entries in which a later entry overwrites an
    earlier one for the same question. *)
Definition lastWins (entries : list (Z * QString)) : gmap Z QString :=
  list_to_map (reverse entries).

(** Modelled from the spec: the reader of a saved file.  The repository
    writes the file and has no code that reads it back; the specification
    speaks of "reconstructing the mapping from <n>,<answer> lines".  The
    reader takes the lines after the first, cuts each at its first comma and
    reads the number before it; a line without a comma or without a number
    is no entry. *)
Fixpoint cutAt (sep : QChar) (s : QString) : option (QString * QString) :=
  match s with
  | [] => None
  | c :: s' => if c =? sep then Some ([], s') else prod_map (cons c) id <$> cutAt sep s'
  end.

Definition readEntry (line : QString) : option (Z * QString) :=
  '(n, answer) ← cutAt 44 line;
  questionNumber ← toInt n;
  Some (questionNumber, answer).

Definition loadAnswers (text : QString) : list (Z * QString) :=
  omap readEntry (tail (split 10 text)).

(** The answers with their question numbers, 1 upwards. *)
Definition numbered (answers : list QString) : list (Z * QString) :=
  imap (λ i a, ((Z.of_nat i + 1)%Z, a)) answers.

(** The line of the save file for an entry. *)
Definition entryLine (e : Z * QString) : QString := number e.1 ++ qs "," ++ e.2.

(** ** Auxiliary definitions *)

(** The three vectors of a panel run in parallel, as [buildGrid] makes them. *)
Definition parallel (p : SectionPanel) : Prop :=
  length (keyEdits_ p) = length (userEdits_ p)
  ∧ length (statusLabels_ p) = length (userEdits_ p).

(** A panel with other status labels and everything else as it was. *)
Definition relabel (labels : list QString) (p : SectionPanel) : SectionPanel :=
  {| sectionName_ := sectionName_ p; groups_ := groups_ p;
     userEdits_ := userEdits_ p; keyEdits_ := keyEdits_ p;
     statusLabels_ := labels; keysVisible_ := keysVisible_ p |}.

(** The ways [Star (Class p)] matches at a state, longest first. *)
Fixpoint states (p : QChar → bool) (pos : nat) (s : QString) (caps : list (nat * QString))
    : list mstate :=
  match s with
  | c :: s' =>
      if p c then states p (S pos) s' caps ++ [MState pos s caps]
      else [MState pos s caps]
  | [] => [MState pos s caps]
  end.

(** [first r st st']: the matcher's first way through [r] from [st] ends
    in [st']. *)
Definition first (r : pattern) (st st' : mstate) : Prop :=
  ∃ others, run r st = st' :: others.

(** No character of the class at the front. *)
Definition stopsAt (p : QChar → bool) (s : QString) : Prop :=
  ∀ c s', s = c :: s' → p c = false.

(** What [normalizeAnswer] removes besides the ends: the ASCII whitespace
    of the class [\s], and the hyphen. *)
Definition removed (c : QChar) : bool := re_space c || lit 45 c.

(** Trimming at the end only; [trimmed s] is [rtrim (dropWhile isSpace s)]. *)
Definition rtrim (s : QString) : QString := dropWhileEnd isSpace s.

Definition isDigit (c : QChar) : Prop := 48 ≤ c ≤ 57.

Definition numberedFrom (i : nat) (answers : list QString) : list (Z * QString) :=
  imap (λ j a, ((Z.of_nat (i + j) + 1)%Z, a)) answers.

(** A mapping whose keys are all question numbers of the form. *)
Definition inRange (m : gmap Z QString) : Prop :=
  ∀ q a, m !! q = Some a → (1 ≤ q ≤ kNumQuestions)%Z.

(** A matcher state whose remaining subject and whose captured groups are
    made of characters with the property [P]. *)
Definition clean (P : QChar → Prop) (st : mstate) : Prop :=
  Forall P (m_rest st) ∧ Forall (λ group, Forall P group.2) (m_caps st).

(** A character of a numbers token: a digit or '&'. *)
Definition numberChar (c : QChar) : bool := re_digit c || lit 38 c.

(** Every class of the pattern lies in [Q]: the pattern consumes characters
    with the property [Q] only. *)
Fixpoint consumes (Q : QChar → Prop) (r : pattern) : Prop :=
  match r with
  | Class p => ∀ c, p c = true → Q c
  | Bol | Eol => True
  | Seq a b => consumes Q a ∧ consumes Q b
  | Star a => consumes Q a
  | Capture _ a => consumes Q a
  end.

(** A panel of the window: its vectors run in parallel over the 40
    questions, and its keys are shown or hidden as the flag says. *)
Definition panelOk (visible : bool) (p : SectionPanel) : Prop :=
  parallel p ∧ questionCount p = kNumQuestions ∧ keysVisible_ p = visible.

(** What the constructor of the window establishes and every slot keeps:
    both panels are as above, with the keys hidden when [answersHidden_] is
    set; the text of the hide button goes with the flag; and the stack shows
    one of its three pages. *)
Definition wellFormed (f : Window) : Prop :=
  panelOk (negb (answersHidden_ f)) (listeningPanel_ (stack_ f))
  ∧ panelOk (negb (answersHidden_ f)) (readingPanel_ (stack_ f))
  ∧ hideButton_ f = (if answersHidden_ f then qs "Show Answers" else qs "Hide Answers")
  ∧ (0 ≤ currentIndex (stack_ f) ≤ 2)%Z.

Inductive Field : Type := UserField | KeyField.

(** The user typing into a line edit: the edit then holds a text of at most
    [maxLength] code units. *)
Definition typeInto (field : Field) (i : nat) (text : QString) (p : SectionPanel)
    : SectionPanel :=
  {| sectionName_ := sectionName_ p; groups_ := groups_ p;
     userEdits_ := match field with
                   | UserField => <[i := setText text]> (userEdits_ p)
                   | KeyField => userEdits_ p
                   end;
     keyEdits_ := match field with
                  | UserField => keyEdits_ p
                  | KeyField => <[i := setText text]> (keyEdits_ p)
                  end;
     statusLabels_ := statusLabels_ p;
     keysVisible_ := keysVisible_ p |}.

(** What can happen to the window: a button is clicked (with the way the
    dialog it opens ends), or the user types into a field of a panel. *)
Inductive Event : Type :=
| ShowLanding
| StartListening
| StartReading
| SubmitAnswers
| PreviewAnswers
| ClearActive
| SaveAnswers (filePath : QString) (opened : bool)
| PasteAnswerKeys (dialog : option QString)
| ToggleHideAnswers
| Typed (section : IeltsSection) (field : Field) (i : nat) (text : QString).

Definition typed (section : IeltsSection) (field : Field) (i : nat) (text : QString)
    (f : Window) : Window :=
  {| stack_ :=
       match section with
       | Listening =>
           {| currentIndex := currentIndex (stack_ f);
              listeningPanel_ := typeInto field i text (listeningPanel_ (stack_ f));
              readingPanel_ := readingPanel_ (stack_ f) |}
       | Reading =>
           {| currentIndex := currentIndex (stack_ f);
              listeningPanel_ := listeningPanel_ (stack_ f);
              readingPanel_ := typeInto field i text (readingPanel_ (stack_ f)) |}
       end;
     scoreLabel_ := scoreLabel_ f; hideButton_ := hideButton_ f;
     answersHidden_ := answersHidden_ f |}.

(** The window after an event and the message boxes shown; [None] when a
    slot reads a vector outside its bounds. *)
Definition handle (e : Event) (f : Window) : option (Window * list MessageBox) :=
  match e with
  | ShowLanding => Some (showLanding f, [])
  | StartListening => Some (startListening f, [])
  | StartReading => Some (startReading f, [])
  | SubmitAnswers => submitAnswers f
  | PreviewAnswers => Some (f, previewAnswers f)
  | ClearActive => Some (clearActive f)
  | SaveAnswers filePath opened => Some (f, saveAnswersBoxes f filePath opened)
  | PasteAnswerKeys dialog => Some (pasteAnswerKeys dialog f)
  | ToggleHideAnswers => Some (toggleHideAnswers f, [])
  | Typed section field i text => Some (typed section field i text f, [])
  end.

(** The windows the program can be in. *)
Inductive reachable : Window → Prop :=
| reachable_new : reachable newMainWindow
| reachable_step e f f' boxes :
    reachable f → handle e f = Some (f', boxes) → reachable f'.

(** ** Sample panels *)

(** A small listening panel with three rows filled in. *)
Definition demoPanel : SectionPanel :=
  {| sectionName_ := qs "Listening";
     groups_ := [ {| title := qs "Listening Part 1 (Q1-3)"; count := 3 |} ];
     userEdits_ := [qs " Paris "; qs "x"; qs "b"];
     keyEdits_ := [qs "paris"; qs "  "; qs "a"];
     statusLabels_ := [[]; []; []];
     keysVisible_ := true |}.

Definition demoWindow : MainWindow :=
  {| currentIndex := 1;
     listeningPanel_ := demoPanel;
     readingPanel_ := buildGrid (qs "Reading") readingGroups |}.

(** A listening panel whose first answer holds a line feed, as a line edit
    does after a paste of two lines. *)
Definition pastedPanel : SectionPanel :=
  {| sectionName_ := qs "Listening";
     groups_ := [ {| title := qs "Listening Part 1 (Q1-1)"; count := 1 |} ];
     userEdits_ := [qs "a" ++ [10] ++ qs "b"];
     keyEdits_ := [[]];
     statusLabels_ := [[]];
     keysVisible_ := true |}.

Definition pastedWindow : MainWindow :=
  {| currentIndex := 1;
     listeningPanel_ := pastedPanel;
     readingPanel_ := buildGrid (qs "Reading") readingGroups |}.

(** A panel of one question: the key "new york" pasted with a no-break
    space (U+00A0), the answer typed with a space. *)
Definition nbspPanel : SectionPanel :=
  {| sectionName_ := qs "Listening";
     groups_ := [ {| title := qs "Listening Part 1 (Q1-1)"; count := 1 |} ];
     userEdits_ := [qs "new york"];
     keyEdits_ := [qs "new" ++ [160] ++ qs "york"];
     statusLabels_ := [[]];
     keysVisible_ := true |}.

(** A panel of two questions whose keys are hyphens and whose answers are
    blank. *)
Definition hyphenPanel : SectionPanel :=
  {| sectionName_ := qs "Listening";
     groups_ := [ {| title := qs "Listening Part 1 (Q1-2)"; count := 2 |} ];
     userEdits_ := [[]; qs "  "];
     keyEdits_ := [qs "-"; qs " - - "];
     statusLabels_ := [[]; []];
     keysVisible_ := true |}.

(** The window with the sample panel open and an old score line. *)
Definition demoForm : Window :=
  {| stack_ := demoWindow; scoreLabel_ := qs "old"; hideButton_ := qs "Hide Answers";
     answersHidden_ := false |}.

(** ** Proof automation *)

(** [Some x ≫= f] is [f x]. *)
Ltac bind_some := change (Some ?x ≫= ?f) with (f x); cbv beta iota.

Ltac scan_cases :=
  unfold lookupBand, listeningBandTable, readingBandTable, row;
  cbn [scanTable fst snd];
  repeat case_bool_decide; try lia; try reflexivity.

(** A band is a number of half points from 2.0 to 9.0. *)
Ltac half_points :=
  let go h := solve [exists h; split; [lia | vm_compute; reflexivity]] in
  first [ go 4%Z | go 5%Z | go 6%Z | go 7%Z | go 8%Z | go 9%Z | go 10%Z | go 11%Z
        | go 12%Z | go 13%Z | go 14%Z | go 15%Z | go 16%Z | go 17%Z | go 18%Z ].

(** ** Band lookup *)

Lemma scanTable_find (table : list (Z * float)) (c : Z) :
  scanTable table c
  = default 0.0%float ((λ r, r.2.2) <$> list_find (λ e, (e.1 ≤ c)%Z) table).
Proof.
  induction table as [|e table IH]; [done|].
  cbn [scanTable list_find]. case_bool_decide; case_decide; try lia; [done|].
  rewrite IH. by destruct (list_find _ table) as [[]|].
Qed.

Lemma lookupBand_table (s : IeltsSection) (c : Z) :
  lookupBand (nameOf s) c = scanTable (spec_band_table s) c.
Proof. by destruct s. Qed.

Lemma spec_band_table_descending (s : IeltsSection) : descending (spec_band_table s).
Proof.
  intros i j a b Hi Hj Hij.
  assert (j < 15)%nat by (apply lookup_lt_Some in Hj; by destruct s).
  destruct s;
    do 15 (destruct i as [|i]; [ do 15 (destruct j as [|j]; [ try lia; cbv in Hi, Hj; by simplify_eq | ]); lia | ]);
    lia.
Qed.

(** C2. For both sections and every non-negative count, [lookupBand] is the
    band of the first row of the section's table, read from the top, whose
    [minCorrect] is at most the count.  The tables of the code are the ones
    the specification lists, in strictly descending order of [minCorrect];
    a count of 0 gives band 2.0 in both sections, 39 gives 9.0 in Listening
    and 33 gives 7.5 in Reading. *)
Theorem lookupBand_first_match (s : IeltsSection) (correctCount : Z) :
  (0 ≤ correctCount)%Z →
  (∃ i e, list_find (λ e, (e.1 ≤ correctCount)%Z) (spec_band_table s) = Some (i, e)
          ∧ lookupBand (nameOf s) correctCount = e.2)
  ∧ listeningBandTable = spec_band_table Listening
  ∧ readingBandTable = spec_band_table Reading
  ∧ descending (spec_band_table s)
  ∧ lookupBand (nameOf s) 0 = 2.0%float
  ∧ lookupBand (nameOf Listening) 39 = 9.0%float
  ∧ lookupBand (nameOf Reading) 33 = 7.5%float.
Proof.
  intros Hc. split_and!; try done.
  - rewrite lookupBand_table, scanTable_find.
    destruct (list_find _ _) as [[i e]|] eqn:Hfind; [by eauto|].
    exfalso. apply list_find_None in Hfind.
    assert (row 0 2.0 ∈ spec_band_table s) as Hin by (destruct s; set_solver).
    rewrite Forall_forall in Hfind. apply Hfind in Hin. cbn in Hin. lia.
  - apply spec_band_table_descending.
  - by destruct s.
Qed.

Lemma lookupBand_first_match_witness :
  (∃ i e, list_find (λ e, (e.1 ≤ 25)%Z) (spec_band_table Listening) = Some (i, e)
          ∧ lookupBand (nameOf Listening) 25 = e.2)
  ∧ lookupBand (nameOf Listening) 25 = 6.0%float.
Proof.
  split; [|reflexivity].
  apply (lookupBand_first_match Listening 25). lia.
Defined.

(** C3. For a fixed section name, [lookupBand] does not decrease when the
    count grows: for non-negative counts [c1 <= c2], the band of [c1] is at
    most the band of [c2] as doubles. *)
Theorem lookupBand_monotone (sectionName : QString) (c1 c2 : Z) :
  (0 ≤ c1)%Z → (c1 ≤ c2)%Z →
  PrimFloat.leb (lookupBand sectionName c1) (lookupBand sectionName c2) = true.
Proof.
  intros H0 H12. unfold lookupBand.
  destruct (bool_decide (sectionName = qs "Listening")); scan_cases.
Qed.

Lemma lookupBand_monotone_witness :
  PrimFloat.leb (lookupBand (qs "Reading") 14) (lookupBand (qs "Reading") 15) = true.
Proof. apply (lookupBand_monotone (qs "Reading") 14 15); lia. Defined.

(** C10. [lookupBand] returns for every section name and every count; on a
    negative count no row matches and the result is the fall-through value
    0.0. *)
Theorem lookupBand_negative (sectionName : QString) (correct : Z) :
  (correct < 0)%Z → lookupBand sectionName correct = 0.0%float.
Proof.
  intros Hneg. unfold lookupBand.
  destruct (bool_decide (sectionName = qs "Listening")); scan_cases.
Qed.

Lemma lookupBand_negative_witness : lookupBand (qs "Listening") (-1) = 0.0%float.
Proof. apply (lookupBand_negative (qs "Listening") (-1)). lia. Defined.

(** ** Evaluation *)

Lemma buildGrid_parallel (sectionName : QString) (groups : list GroupSpec) :
  parallel (buildGrid sectionName groups).
Proof. by split. Qed.

(** Both sections of the form have 40 questions. *)
Example question_counts :
  questionCount (buildGrid (qs "Listening") listeningGroups) = kNumQuestions
  ∧ questionCount (buildGrid (qs "Reading") readingGroups) = kNumQuestions.
Proof. by split. Qed.

Lemma countEvaluated_cons (s : QString * QString) (l : list (QString * QString)) :
  countEvaluated (s :: l)
  = ((if isEmpty s.2 then 0 else 1) + countEvaluated l)%Z.
Proof.
  unfold countEvaluated. rewrite filter_cons.
  destruct (isEmpty s.2); destruct (decide _); try done; cbn [length]; lia.
Qed.

Lemma countCorrect_cons (s : QString * QString) (l : list (QString * QString)) :
  countCorrect (s :: l)
  = ((match slotVerdict s with Correct => 1 | _ => 0 end) + countCorrect l)%Z.
Proof.
  unfold countCorrect, slotVerdict. rewrite filter_cons. destruct s as [u k]; cbn [fst snd].
  destruct (isEmpty k).
  - by rewrite decide_False by (by intros [? _]).
  - case_bool_decide.
    + rewrite decide_True by done. cbn [length]. lia.
    + rewrite decide_False by (by intros [_ ?]). lia.
Qed.

Lemma count_bounds (l : list (QString * QString)) :
  (0 ≤ countCorrect l ≤ countEvaluated l)%Z ∧ (countEvaluated l ≤ Z.of_nat (length l))%Z.
Proof.
  induction l as [|s l IH]; [done|].
  rewrite countCorrect_cons, countEvaluated_cons. unfold slotVerdict.
  destruct s as [u k]; cbn [fst snd length]. destruct (isEmpty k); [lia|].
  case_bool_decide; lia.
Qed.

(** The loop from index [length us1] on, over what is left of the vectors. *)
Lemma evaluate_loop_from (us2 : list QString) :
  ∀ (p : SectionPanel) (us1 ks1 ks2 ss1 ss2 : list QString) (c e : Z),
    userEdits_ p = us1 ++ us2 → keyEdits_ p = ks1 ++ ks2 →
    statusLabels_ p = ss1 ++ ss2 →
    length ks1 = length us1 → length ss1 = length us1 →
    length ks2 = length us2 → length ss2 = length us2 →
    let rest := zip (trimmed <$> us2) (trimmed <$> ks2) in
    evaluate_loop (length us1) (length us2) (p, (c, e))
    = Some (relabel (ss1 ++ ((verdictText ∘ slotVerdict) <$> rest)) p,
            ((c + countCorrect rest)%Z, (e + countEvaluated rest)%Z)).
Proof.
  induction us2 as [|u us2 IH]; intros p us1 ks1 ks2 ss1 ss2 c e Hu Hk Hs Hk1 Hs1 Hk2 Hs2.
  - destruct ks2; [|done]. destruct ss2; [|done]. cbn.
    rewrite app_nil_r in *. unfold countCorrect, countEvaluated. cbn.
    rewrite !Z.add_0_r. destruct p; cbn in *; by subst.
  - destruct ks2 as [|k ks2]; [done|]. destruct ss2 as [|s ss2]; [done|].
    cbn [length evaluate_loop]. unfold evaluate_step.
    rewrite Hs, Hk, Hu.
    assert ((ss1 ++ s :: ss2) !! length us1 = Some s) as ->
      by (rewrite <- Hs1; by apply list_lookup_middle).
    assert ((ks1 ++ k :: ks2) !! length us1 = Some k) as ->
      by (rewrite <- Hk1; by apply list_lookup_middle).
    assert ((us1 ++ u :: us2) !! length us1 = Some u) as ->
      by (by apply list_lookup_middle).
    cbn [mbind option_bind].
    change (zip (trimmed <$> u :: us2) (trimmed <$> k :: ks2))
      with ((trimmed u, trimmed k) :: zip (trimmed <$> us2) (trimmed <$> ks2)).
    rewrite countCorrect_cons, countEvaluated_cons.
    cbn [fmap list_fmap compose slotVerdict fst snd].
    assert (∀ txt, setStatus (length us1) txt p = relabel ((ss1 ++ [txt]) ++ ss2) p) as Hset.
    { intros txt. unfold setStatus, relabel. f_equal. rewrite Hs, <- Hs1.
      rewrite insert_app_r_alt by done. rewrite Nat.sub_diag. cbn.
      by rewrite <- app_assoc. }
    assert (∀ txt c' e',
      evaluate_loop (S (length us1)) (length us2) (setStatus (length us1) txt p, (c', e'))
      = Some (relabel (ss1 ++ txt :: ((verdictText ∘ slotVerdict)
                                        <$> zip (trimmed <$> us2) (trimmed <$> ks2))) p,
              ((c' + countCorrect (zip (trimmed <$> us2) (trimmed <$> ks2)))%Z,
               (e' + countEvaluated (zip (trimmed <$> us2) (trimmed <$> ks2)))%Z))) as Hgo.
    { intros txt c' e'. rewrite Hset.
      replace (S (length us1)) with (length (us1 ++ [u])) by (rewrite length_app; cbn; lia).
      cbn in Hk2, Hs2.
      rewrite (IH (relabel ((ss1 ++ [txt]) ++ ss2) p) (us1 ++ [u]) (ks1 ++ [k]) ks2
                 (ss1 ++ [txt]) ss2 c' e')
        by (cbn; rewrite <- ?app_assoc, ?length_app; cbn; first [done | lia]).
      cbn. by rewrite <- !app_assoc. }
    destruct (isEmpty (trimmed k)) eqn:Hempty.
    + bind_some. rewrite Hgo. cbn. do 3 f_equal; lia.
    + bind_some. rewrite Hgo. case_bool_decide; cbn; do 3 f_equal; lia.
Qed.

Lemma evaluate_result (p : SectionPanel) :
  parallel p →
  evaluate p
  = Some (relabel ((verdictText ∘ slotVerdict) <$> slots p) p,
          (countCorrect (slots p), countEvaluated (slots p))).
Proof.
  intros [Hk Hs]. unfold evaluate.
  apply (evaluate_loop_from (userEdits_ p) p [] [] (keyEdits_ p) [] (statusLabels_ p) 0 0);
    done.
Qed.

(** C1. On a panel whose three vectors run in parallel, [evaluate] returns
    (correctCount, evaluatedCount) where evaluatedCount is the number of
    slots whose key answer is not empty and correctCount the number of those
    whose normalized user answer equals the normalized key; so
    0 <= correctCount <= evaluatedCount <= number of slots.  A slot with an
    empty key gets no verdict, the others get the mark of their comparison. *)
Theorem evaluate_counts (p : SectionPanel) :
  parallel p →
  ∃ p' correctCount evaluatedCount,
    evaluate p = Some (p', (correctCount, evaluatedCount))
    ∧ evaluatedCount
      = Z.of_nat (length (filter (λ s, isEmpty s.2 = false) (slots p)))
    ∧ correctCount
      = Z.of_nat (length (filter (λ s, isEmpty s.2 = false
                                      ∧ normalizeAnswer s.1 = normalizeAnswer s.2)
                                 (slots p)))
    ∧ (0 ≤ correctCount ≤ evaluatedCount)%Z
    ∧ (evaluatedCount ≤ questionCount p)%Z
    ∧ statusLabels_ p' = (verdictText ∘ slotVerdict) <$> slots p.
Proof.
  intros Hp. eexists _, _, _. split; [by apply evaluate_result|].
  split_and!; try done.
  - apply count_bounds.
  - apply count_bounds.
  - etrans; [apply count_bounds|]. unfold slots, answers, answerKeys, questionCount.
    rewrite length_zip, !length_fmap. lia.
Qed.

Lemma evaluate_counts_witness :
  ∃ p' correctCount evaluatedCount,
    evaluate demoPanel = Some (p', (correctCount, evaluatedCount))
    ∧ evaluatedCount
      = Z.of_nat (length (filter (λ s, isEmpty s.2 = false) (slots demoPanel)))
    ∧ correctCount
      = Z.of_nat (length (filter (λ s, isEmpty s.2 = false
                                      ∧ normalizeAnswer s.1 = normalizeAnswer s.2)
                                 (slots demoPanel)))
    ∧ (0 ≤ correctCount ≤ evaluatedCount)%Z
    ∧ (evaluatedCount ≤ questionCount demoPanel)%Z
    ∧ statusLabels_ p' = (verdictText ∘ slotVerdict) <$> slots demoPanel.
Proof. apply (evaluate_counts demoPanel). by split. Defined.

Example evaluate_demo :
  evaluate demoPanel
  = Some (relabel [statusText true; []; statusText false] demoPanel, (1, 2)%Z).
Proof. vm_compute. reflexivity. Qed.

(** C9. [evaluate] leaves every user answer and every key as it was: the
    panel afterwards differs from the panel before in its status labels
    only, and each label is the text of one of the three verdicts. *)
Theorem evaluate_frame (p : SectionPanel) :
  parallel p →
  ∃ p' tally,
    evaluate p = Some (p', tally)
    ∧ userEdits_ p' = userEdits_ p
    ∧ keyEdits_ p' = keyEdits_ p
    ∧ answers p' = answers p
    ∧ answerKeys p' = answerKeys p
    ∧ p' = relabel (statusLabels_ p') p
    ∧ length (statusLabels_ p') = length (statusLabels_ p)
    ∧ Forall (λ label, ∃ v, label = verdictText v) (statusLabels_ p').
Proof.
  intros Hp. eexists _, _. split; [by apply evaluate_result|].
  split_and!; try done.
  - cbn. unfold slots, answers, answerKeys.
    rewrite length_fmap, length_zip, !length_fmap. destruct Hp as [Hk Hs]. lia.
  - cbn. apply Forall_fmap, Forall_forall. intros s _. by eexists.
Qed.

Lemma evaluate_frame_witness :
  ∃ p' tally,
    evaluate demoPanel = Some (p', tally)
    ∧ userEdits_ p' = userEdits_ demoPanel
    ∧ keyEdits_ p' = keyEdits_ demoPanel
    ∧ answers p' = answers demoPanel
    ∧ answerKeys p' = answerKeys demoPanel
    ∧ p' = relabel (statusLabels_ p') demoPanel
    ∧ length (statusLabels_ p') = length (statusLabels_ demoPanel)
    ∧ Forall (λ label, ∃ v, label = verdictText v) (statusLabels_ p').
Proof. apply (evaluate_frame demoPanel). by split. Defined.

(** ** Saving and reading back *)

Lemma split_cons_inv (sep : QChar) (s : QString) :
  ∃ p ps, split sep s = p :: ps.
Proof.
  destruct s as [|c s]; cbn; [by eauto|].
  destruct (c =? sep); [by eauto|]. destruct (split sep s); by eauto.
Qed.

Lemma split_app_sep (sep : QChar) (s rest : QString) :
  sep ∉ s → split sep (s ++ sep :: rest) = s :: split sep rest.
Proof.
  induction s as [|c s IH]; intros Hs; cbn.
  - by rewrite N.eqb_refl.
  - apply not_elem_of_cons in Hs as [Hc Hs].
    destruct (N.eqb_spec c sep) as [|_]; [done|]. by rewrite IH.
Qed.

Lemma split_no_sep (sep : QChar) (s : QString) : sep ∉ s → split sep s = [s].
Proof.
  induction s as [|c s IH]; intros Hs; cbn; [done|].
  apply not_elem_of_cons in Hs as [Hc Hs].
  destruct (N.eqb_spec c sep) as [|_]; [done|]. by rewrite IH.
Qed.

Lemma cutAt_app_sep (sep : QChar) (s rest : QString) :
  sep ∉ s → cutAt sep (s ++ sep :: rest) = Some (s, rest).
Proof.
  induction s as [|c s IH]; intros Hs; cbn.
  - by rewrite N.eqb_refl.
  - apply not_elem_of_cons in Hs as [Hc Hs].
    destruct (N.eqb_spec c sep) as [|_]; [done|]. by rewrite IH.
Qed.

Lemma digits_acc_digits (fuel : nat) :
  ∀ n acc, Forall isDigit acc → Forall isDigit (digits_acc fuel n acc).
Proof.
  induction fuel as [|fuel IH]; intros n acc Hacc; cbn; [done|].
  assert (isDigit (48 + n mod 10)).
  { pose proof (N.mod_upper_bound n 10 ltac:(done)) as Hmod. unfold isDigit.
    revert Hmod. generalize (n mod 10). lia. }
  destruct (n / 10 =? 0); [|apply IH]; by constructor.
Qed.

Lemma digits_acc_nonempty (fuel : nat) (n : N) (acc : QString) :
  digits_acc (S fuel) n acc ≠ [].
Proof.
  revert n acc. induction fuel as [|fuel IH]; intros n acc; cbn.
  - by destruct (n / 10 =? 0).
  - destruct (n / 10 =? 0); [done|]. apply (IH (n / 10)).
Qed.

Lemma digitValue_digit (d : N) : d < 10 → digitValue (48 + d) = Some (Z.of_N d).
Proof.
  intros Hd. unfold digitValue, in_range.
  replace (48 <=? 48 + d) with true by (symmetry; apply N.leb_le; lia).
  replace (48 + d <=? 57) with true by (symmetry; apply N.leb_le; lia).
  cbn. f_equal. lia.
Qed.

(** Reading the digits written for [n] in front of [acc] is reading [acc]
    from the value [n]. *)
Lemma toInt_acc_digits (fuel : nat) :
  ∀ n acc, n < 2 ^ N.of_nat fuel →
    toInt_acc 0 (digits_acc fuel n acc) = toInt_acc (Z.of_N n) acc.
Proof.
  induction fuel as [|fuel IH]; intros n acc Hn.
  - cbn in Hn. by replace n with 0 by lia.
  - cbn [digits_acc].
    pose proof (N.mod_upper_bound n 10 ltac:(done)) as Hmod.
    pose proof (N.div_mod n 10 ltac:(done)) as Hdiv.
    rewrite Nat2N.inj_succ, N.pow_succ_r' in Hn.
    assert (n / 10 < 2 ^ N.of_nat fuel) as Hq
      by (apply N.Div0.div_lt_upper_bound; lia).
    revert Hmod Hdiv Hq. generalize (n mod 10) as r, (n / 10) as q. intros r q Hmod Hdiv Hq.
    destruct (N.eqb_spec q 0) as [H0|H0].
    + cbn [toInt_acc]. rewrite digitValue_digit by done. cbn.
      do 2 f_equal. lia.
    + rewrite IH by done.
      cbn [toInt_acc]. rewrite digitValue_digit by done. cbn.
      do 2 f_equal. lia.
Qed.

Lemma toInt_number (n : Z) : (0 ≤ n ≤ INT_MAX)%Z → toInt (number n) = Some n.
Proof.
  intros Hn. unfold toInt, number.
  destruct (digits_acc _ _ _) eqn:Hd; [by apply digits_acc_nonempty in Hd|].
  rewrite <- Hd. rewrite toInt_acc_digits.
  - cbn. rewrite Z2N.id by lia. by rewrite bool_decide_eq_true_2 by lia.
  - rewrite Nat2N.inj_succ, N2Nat.id.
    destruct (Z.to_N n) as [|m]; [done|]. apply N.log2_spec. lia.
Qed.

Lemma number_digits (n : Z) : Forall isDigit (number n).
Proof. by apply digits_acc_digits. Qed.

Lemma number_no_char (n : Z) (c : QChar) : ¬ isDigit c → c ∉ number n.
Proof.
  intros Hc Hin. pose proof (number_digits n) as Hd.
  rewrite Forall_forall in Hd. by apply Hd in Hin.
Qed.

Lemma readEntry_entryLine (e : Z * QString) :
  (0 ≤ e.1 ≤ INT_MAX)%Z → readEntry (entryLine e) = Some e.
Proof.
  intros He. destruct e as [n a]. unfold readEntry, entryLine. cbn [fst snd].
  change (qs "," ++ a) with (44 :: a).
  rewrite cutAt_app_sep by (apply number_no_char; unfold isDigit; lia).
  bind_some. rewrite toInt_number by done. by bind_some.
Qed.

Lemma omap_readEntry_lines (es : list (Z * QString)) :
  Forall (λ e, 0 ≤ e.1 ≤ INT_MAX)%Z es → omap readEntry (entryLine <$> es) = es.
Proof.
  induction 1 as [|e es He _ IH]; [done|].
  rewrite fmap_cons. cbn [omap list_omap].
  rewrite readEntry_entryLine by done. by rewrite IH.
Qed.

Lemma numberedFrom_cons (i : nat) (a : QString) (answers : list QString) :
  numberedFrom i (a :: answers) = ((Z.of_nat i + 1)%Z, a) :: numberedFrom (S i) answers.
Proof.
  unfold numberedFrom. rewrite imap_cons. f_equal.
  - do 3 f_equal. lia.
  - apply imap_ext. intros j x _. cbn. do 3 f_equal. lia.
Qed.

Lemma split_writeAnswers (answers : list QString) :
  ∀ i, Forall (λ a, 10 ∉ a) answers →
    split 10 (writeAnswers i answers) = (entryLine <$> numberedFrom i answers) ++ [[]].
Proof.
  induction answers as [|a answers IH]; intros i Hlf; [done|].
  apply Forall_cons in Hlf as [Ha Hlf].
  rewrite numberedFrom_cons. cbn [writeAnswers fmap list_fmap app].
  rewrite <- IH by done.
  rewrite !app_assoc, <- (app_assoc _ (qs ",")).
  rewrite split_app_sep; [done|]. change (qs ",") with [44].
  rewrite !elem_of_app, list_elem_of_singleton. intros [Hn|[?|?]]; try done.
  revert Hn. apply number_no_char. unfold isDigit. lia.
Qed.

Lemma numberedFrom_bounds (answers : list QString) :
  ∀ i, (Z.of_nat (i + length answers) ≤ INT_MAX)%Z →
    Forall (λ e, 0 ≤ e.1 ≤ INT_MAX)%Z (numberedFrom i answers).
Proof.
  induction answers as [|a answers IH]; intros i Hi; [by constructor|].
  rewrite numberedFrom_cons. cbn [length] in Hi. constructor.
  - cbn. lia.
  - apply IH. lia.
Qed.

Lemma numberedFrom_snd (answers : list QString) :
  ∀ i, (numberedFrom i answers).*2 = answers.
Proof.
  induction answers as [|a answers IH]; intros i; [done|].
  rewrite numberedFrom_cons. cbn. by rewrite IH.
Qed.

Lemma activePanel_name (w : MainWindow) (sectionName : QString) (panel : SectionPanel) :
  activePanel w = Some (sectionName, panel) → 10 ∉ sectionName.
Proof.
  unfold activePanel. repeat case_bool_decide; intros ?; simplify_eq;
    apply (bool_decide_unpack _); by vm_compute.
Qed.

(** C8, amended.  With a section active, a file chosen and opened, the file
    text is the section name on line 1, then one line [<n>,<answer>] per
    question in index order, each ended by a line feed; reading it back
    gives the answers again, each with its question number, provided no
    answer holds a comma or a line feed. *)
Theorem save_load_roundtrip (w : MainWindow) (sectionName filePath : QString)
    (panel : SectionPanel) :
  activePanel w = Some (sectionName, panel) →
  isEmpty filePath = false →
  (questionCount panel ≤ INT_MAX)%Z →
  Forall (λ a, (44 ∉ a) ∧ (10 ∉ a)) (answers panel) →
  ∃ text,
    saveAnswers w filePath true = Some text
    ∧ split 10 text = sectionName :: (entryLine <$> numbered (answers panel)) ++ [[]]
    ∧ loadAnswers text = numbered (answers panel)
    ∧ (loadAnswers text).*2 = answers panel.
Proof.
  intros Hactive Hpath Hsize Hok.
  assert (Forall (λ a, 10 ∉ a) (answers panel)) as Hlf
    by (eapply Forall_impl; [done|]; by intros a [_ ?]).
  unfold saveAnswers. rewrite Hactive. bind_some. rewrite Hpath. cbn [negb].
  eexists. split; [done|].
  assert (split 10 (sectionName ++ [10] ++ writeAnswers 0 (answers panel))
          = sectionName :: (entryLine <$> numbered (answers panel)) ++ [[]]) as Hsplit.
  { cbn [app]. rewrite split_app_sep by (by eapply activePanel_name).
    by rewrite split_writeAnswers. }
  assert (loadAnswers (sectionName ++ [10] ++ writeAnswers 0 (answers panel))
          = numbered (answers panel)) as Hload.
  { unfold loadAnswers. rewrite Hsplit. cbn [tail].
    rewrite omap_app, omap_readEntry_lines; [by rewrite app_nil_r|].
    apply (numberedFrom_bounds _ 0). unfold questionCount, answers in *.
    rewrite length_fmap. cbn. lia. }
  split_and!; [done..|]. rewrite Hload. apply (numberedFrom_snd _ 0).
Qed.

Lemma save_load_roundtrip_witness :
  ∃ text,
    saveAnswers demoWindow (qs "ielts_listening_answers.txt") true = Some text
    ∧ split 10 text = qs "Listening" :: (entryLine <$> numbered (answers demoPanel)) ++ [[]]
    ∧ loadAnswers text = numbered (answers demoPanel)
    ∧ (loadAnswers text).*2 = answers demoPanel.
Proof.
  apply (save_load_roundtrip demoWindow (qs "Listening")
           (qs "ielts_listening_answers.txt") demoPanel).
  - reflexivity.
  - reflexivity.
  - by vm_compute.
  - apply (bool_decide_unpack _). by vm_compute.
Defined.

Example save_demo :
  saveAnswers demoWindow (qs "out.txt") true
  = Some (qs "Listening" ++ [10] ++ qs "1,Paris" ++ [10] ++ qs "2,x" ++ [10]
          ++ qs "3,b" ++ [10]).
Proof. reflexivity. Qed.

(** C8 as stated fails: an answer with a line feed in it and no comma is
    written over two lines, and the lines read back give another answer. *)
Lemma save_load_line_feed :
  Forall (λ a, 44 ∉ a) (answers pastedPanel)
  ∧ activePanel pastedWindow = Some (qs "Listening", pastedPanel)
  ∧ answers pastedPanel = [qs "a" ++ [10] ++ qs "b"]
  ∧ saveAnswers pastedWindow (qs "out.txt") true
    = Some (qs "Listening" ++ [10] ++ qs "1,a" ++ [10] ++ qs "b" ++ [10])
  ∧ loadAnswers (qs "Listening" ++ [10] ++ qs "1,a" ++ [10] ++ qs "b" ++ [10])
    = [(1%Z, qs "a")]
  ∧ (loadAnswers (qs "Listening" ++ [10] ++ qs "1,a" ++ [10] ++ qs "b" ++ [10])).*2
    ≠ answers pastedPanel.
Proof.
  split_and!; try reflexivity.
  - apply (bool_decide_unpack _). by vm_compute.
  - by vm_compute.
Qed.

(** ** The matcher *)

Section Classes.
Variable p : QChar → bool.

Lemma takeWhile_dropWhile (s : QString) : takeWhile p s ++ dropWhile p s = s.
Proof. induction s as [|c s IH]; cbn; [done|]. destruct (p c); cbn; by rewrite ?IH. Qed.

Lemma takeWhile_Forall (s : QString) : Forall (λ c, p c = true) (takeWhile p s).
Proof.
  induction s as [|c s IH]; cbn; [done|]. destruct (p c) eqn:Hc; by constructor.
Qed.

Lemma dropWhile_head (s : QString) (c : QChar) (s' : QString) :
  dropWhile p s = c :: s' → p c = false.
Proof.
  induction s as [|d s IH]; cbn; [done|]. destruct (p d) eqn:Hd; [done|].
  intros ?; by simplify_eq.
Qed.

Lemma dropWhile_length (s : QString) : (length (dropWhile p s) ≤ length s)%nat.
Proof. induction s as [|c s IH]; cbn; [done|]. destruct (p c); cbn; lia. Qed.


Lemma dropWhile_app_l (pre s : QString) :
  Forall (λ c, p c = true) pre → dropWhile p (pre ++ s) = dropWhile p s.
Proof. induction 1 as [|c pre Hc _ IH]; cbn; [done|]. by rewrite Hc. Qed.


Lemma dropWhile_keep (s : QString) :
  (∀ c s', s = c :: s' → p c = false) → dropWhile p s = s.
Proof. destruct s as [|c s]; cbn; [done|]. intros H. by rewrite (H c s). Qed.


Lemma star_loop_class (fuel : nat) :
  ∀ s pos caps, (length s < fuel)%nat →
    star_loop (run (Class p)) fuel (MState pos s caps) = states p pos s caps.
Proof.
  induction fuel as [|fuel IH]; intros s pos caps Hlen; [lia|].
  destruct s as [|c s]; cbn; [done|].
  destruct (p c); [|done]. cbn.
  rewrite bool_decide_eq_true_2 by lia. rewrite app_nil_r.
  rewrite IH by (cbn in Hlen; lia). done.
Qed.

Lemma run_star_class (s : QString) (pos : nat) (caps : list (nat * QString)) :
  run (Star (Class p)) (MState pos s caps) = states p pos s caps.
Proof. cbn [run m_rest]. apply star_loop_class. lia. Qed.

Lemma states_first (s : QString) :
  ∀ pos caps, ∃ others,
    states p pos s caps
    = MState (pos + length (takeWhile p s)) (dropWhile p s) caps :: others.
Proof.
  induction s as [|c s IH]; intros pos caps; cbn.
  - rewrite Nat.add_0_r. by eexists.
  - destruct (p c); cbn.
    + destruct (IH (S pos) caps) as [others ->].
      replace (pos + S (length (takeWhile p s)))%nat
        with (S pos + length (takeWhile p s))%nat by lia.
      by eexists.
    + rewrite Nat.add_0_r. by eexists.
Qed.

Lemma first_star_class (s : QString) (pos : nat) (caps : list (nat * QString)) :
  first (Star (Class p)) (MState pos s caps)
        (MState (pos + length (takeWhile p s)) (dropWhile p s) caps).
Proof. unfold first. rewrite run_star_class. apply states_first. Qed.

Lemma first_class (c : QChar) (s : QString) (pos : nat) (caps : list (nat * QString)) :
  p c = true →
  first (Class p) (MState pos (c :: s) caps) (MState (S pos) s caps).
Proof. intros Hc. exists []. cbn. by rewrite Hc. Qed.

Lemma run_plus_class_reject (c : QChar) (s : QString) (pos : nat)
    (caps : list (nat * QString)) :
  p c = false → run (Plus (Class p)) (MState pos (c :: s) caps) = [].
Proof. intros Hc. cbn. by rewrite Hc. Qed.
End Classes.

Lemma first_seq (a b : pattern) (st st1 st2 : mstate) :
  first a st st1 → first b st1 st2 → first (Seq a b) st st2.
Proof.
  intros [o1 H1] [o2 H2]. unfold first. cbn [run]. rewrite H1, bind_cons, H2.
  by eexists.
Qed.

Lemma first_plus_class (p : QChar → bool) (c : QChar) (s : QString) (pos : nat)
    (caps : list (nat * QString)) :
  p c = true →
  first (Plus (Class p)) (MState pos (c :: s) caps)
        (MState (S pos + length (takeWhile p s)) (dropWhile p s) caps).
Proof.
  intros Hc. eapply first_seq; [by apply first_class|apply first_star_class].
Qed.



(** ** Normalization *)

Lemma in_range_spec (lo hi c : QChar) : in_range lo hi c = true ↔ lo ≤ c ≤ hi.
Proof. unfold in_range. rewrite andb_true_iff, !N.leb_le. done. Qed.

Lemma isSpace_spec (c : QChar) :
  isSpace c = true ↔
  c = 32 ∨ 9 ≤ c ≤ 13 ∨ c = 133 ∨ c = 160 ∨ c = 5760 ∨ 8192 ≤ c ≤ 8202
  ∨ c = 8232 ∨ c = 8233 ∨ c = 8239 ∨ c = 8287 ∨ c = 12288.
Proof.
  unfold isSpace. rewrite !orb_true_iff, !in_range_spec, !N.eqb_eq. tauto.
Qed.

Lemma re_space_spec (c : QChar) : re_space c = true ↔ 9 ≤ c ≤ 13 ∨ c = 32.
Proof. unfold re_space. by rewrite orb_true_iff, in_range_spec, N.eqb_eq. Qed.

Lemma removed_spec (c : QChar) : removed c = true ↔ 9 ≤ c ≤ 13 ∨ c = 32 ∨ c = 45.
Proof.
  unfold removed, lit. rewrite orb_true_iff, re_space_spec, N.eqb_eq. tauto.
Qed.

Lemma toLowerChar_spec (c : QChar) :
  ((65 ≤ c ≤ 90 ∨ 192 ≤ c ≤ 222 ∧ c ≠ 215) ∧ toLowerChar c = c + 32)
  ∨ (¬ (65 ≤ c ≤ 90 ∨ 192 ≤ c ≤ 222 ∧ c ≠ 215) ∧ toLowerChar c = c).
Proof.
  unfold toLowerChar.
  destruct (in_range 65 90 c || in_range 192 222 c && negb (c =? 215)) eqn:H.
  - left. split; [|done].
    rewrite orb_true_iff, andb_true_iff, negb_true_iff, !in_range_spec, N.eqb_neq in H.
    tauto.
  - right. split; [|done]. intros H'. apply not_true_iff_false in H. apply H.
    rewrite orb_true_iff, andb_true_iff, negb_true_iff, !in_range_spec, N.eqb_neq.
    tauto.
Qed.

Lemma re_space_isSpace (c : QChar) : re_space c = true → isSpace c = true.
Proof. rewrite re_space_spec, isSpace_spec. lia. Qed.

Lemma toLowerChar_idem (c : QChar) : toLowerChar (toLowerChar c) = toLowerChar c.
Proof.
  destruct (toLowerChar_spec c) as [[Hc ->]|[Hc ->]];
    destruct (toLowerChar_spec (c + 32)) as [[Hd Hl]|[Hd Hl]];
    destruct (toLowerChar_spec c) as [[He Hm]|[He Hm]]; lia.
Qed.

Lemma isSpace_toLowerChar (c : QChar) : isSpace (toLowerChar c) = isSpace c.
Proof.
  apply eq_true_iff_eq. rewrite !isSpace_spec.
  destruct (toLowerChar_spec c) as [[Hc ->]|[Hc ->]]; lia.
Qed.

Lemma removed_toLowerChar (c : QChar) : removed (toLowerChar c) = removed c.
Proof.
  apply eq_true_iff_eq. rewrite !removed_spec.
  destruct (toLowerChar_spec c) as [[Hc ->]|[Hc ->]]; lia.
Qed.

Lemma removed_separator (c : QChar) :
  (isSpace c = true → re_space c = true) →
  isSpace c = true ∨ c = 45 → removed c = true.
Proof.
  rewrite removed_spec, re_space_spec. intros Hc [Hs| ->]; [|lia].
  destruct (Hc Hs); lia.
Qed.

(** *** Well-formed subjects *)

Lemma length_ind (P : QString → Prop) :
  (∀ s, (∀ s', (length s' < length s)%nat → P s') → P s) → ∀ s, P s.
Proof.
  intros Hstep s. remember (length s) as n eqn:Hn. revert s Hn.
  induction n as [n IH] using lt_wf_ind. intros s ->.
  apply Hstep. intros s' Hlt. by apply (IH (length s')).
Qed.

Lemma isSurrogate_spec (c : QChar) :
  (isHighSurrogate c = true ↔ 55296 ≤ c ≤ 56319)
  ∧ (isLowSurrogate c = true ↔ 56320 ≤ c ≤ 57343)
  ∧ (isSurrogate c = true ↔ 55296 ≤ c ≤ 57343).
Proof.
  unfold isSurrogate, isHighSurrogate, isLowSurrogate.
  rewrite orb_true_iff, !in_range_spec. lia.
Qed.

Lemma plain_not_surrogate (c : QChar) :
  isSurrogate c = false → isHighSurrogate c = false ∧ isLowSurrogate c = false.
Proof. unfold isSurrogate. by intros [? ?]%orb_false_iff. Qed.

Lemma isSpace_plain (c : QChar) : isSpace c = true → isSurrogate c = false.
Proof.
  intros Hc%isSpace_spec. apply not_true_iff_false.
  destruct (isSurrogate_spec c) as (_ & _ & ->). lia.
Qed.

Lemma removed_plain (c : QChar) : removed c = true → isSurrogate c = false.
Proof.
  intros Hc%removed_spec. apply not_true_iff_false.
  destruct (isSurrogate_spec c) as (_ & _ & ->). lia.
Qed.

Lemma toLowerChar_surrogate (c : QChar) :
  isHighSurrogate (toLowerChar c) = isHighSurrogate c
  ∧ isLowSurrogate (toLowerChar c) = isLowSurrogate c.
Proof.
  split; apply eq_true_iff_eq.
  - destruct (isSurrogate_spec c) as (-> & _), (isSurrogate_spec (toLowerChar c)) as (-> & _).
    destruct (toLowerChar_spec c) as [[Hc ->]|[Hc ->]]; lia.
  - destruct (isSurrogate_spec c) as (_ & -> & _),
      (isSurrogate_spec (toLowerChar c)) as (_ & -> & _).
    destruct (toLowerChar_spec c) as [[Hc ->]|[Hc ->]]; lia.
Qed.

Lemma validUtf16_plain (c : QChar) (s : QString) :
  isSurrogate c = false → validUtf16 (c :: s) = validUtf16 s.
Proof. intros [Hh Hl]%plain_not_surrogate. cbn. by rewrite Hh, Hl. Qed.

Lemma validUtf16_app_plain (a b : QString) :
  Forall (λ c, isSurrogate c = false) a → validUtf16 (a ++ b) = validUtf16 b.
Proof.
  induction 1 as [|c a Hc _ IH]; [done|].
  cbn [app]. by rewrite validUtf16_plain.
Qed.

Lemma validUtf16_all_plain (s : QString) :
  Forall (λ c, isSurrogate c = false) s → validUtf16 s = true.
Proof. intros Hs. by rewrite <- (app_nil_r s), validUtf16_app_plain. Qed.

Lemma validUtf16_app_plain_r (a b : QString) :
  Forall (λ c, isSurrogate c = false) b → validUtf16 (a ++ b) = validUtf16 a.
Proof.
  intros Hb. induction a as [a IH] using length_ind.
  destruct a as [|c a]; [by apply validUtf16_all_plain|].
  cbn [app validUtf16]. destruct (isHighSurrogate c).
  - destruct a as [|d a]; cbn [app].
    + destruct Hb as [|d b [_ Hd]%plain_not_surrogate _]; [done|]. by rewrite Hd.
    + f_equal. apply IH. cbn. lia.
  - destruct (isLowSurrogate c); [done|]. apply IH. cbn. lia.
Qed.

Lemma validUtf16_toLower (s : QString) : validUtf16 (toLower s) = validUtf16 s.
Proof.
  unfold toLower. induction s as [s IH] using length_ind.
  destruct s as [|c s]; [done|].
  cbn [fmap list_fmap validUtf16].
  destruct (toLowerChar_surrogate c) as [-> ->]. destruct (isHighSurrogate c).
  - destruct s as [|d s]; [done|]. cbn [fmap list_fmap].
    destruct (toLowerChar_surrogate d) as [_ ->]. f_equal. apply IH. cbn. lia.
  - destruct (isLowSurrogate c); [done|]. apply IH. cbn. lia.
Qed.

(** Dropping characters that are no surrogates leaves a well-formed
    subject well-formed. *)
Lemma validUtf16_filter (P : QChar → Prop) `{!∀ c, Decision (P c)} (s : QString) :
  (∀ c, isSurrogate c = true → P c) →
  validUtf16 s = true → validUtf16 (filter P s) = true.
Proof.
  intros HP.
  assert (∀ c, isHighSurrogate c = true → P c) as Hhigh.
  { intros c Hc. apply HP. unfold isSurrogate. by rewrite Hc. }
  assert (∀ c, isLowSurrogate c = true → P c) as Hlow.
  { intros c Hc. apply HP. unfold isSurrogate. by rewrite Hc, orb_true_r. }
  induction s as [s IH] using length_ind.
  destruct s as [|c s]; [done|]. rewrite filter_cons. cbn [validUtf16].
  destruct (isHighSurrogate c) eqn:Hc.
  - rewrite decide_True by auto. destruct s as [|d s]; [done|].
    intros [Hd Hs]%andb_true_iff. rewrite filter_cons, decide_True by auto.
    cbn [validUtf16]. rewrite Hc, Hd. apply IH; [cbn; lia|done].
  - destruct (isLowSurrogate c) eqn:Hl; [done|]. intros Hs.
    destruct (decide (P c)).
    + cbn [validUtf16]. rewrite Hc, Hl. apply IH; [cbn; lia|done].
    + apply IH; [cbn; lia|done].
Qed.

Lemma validUtf16_dropWhile (p : QChar → bool) (s : QString) :
  (∀ c, p c = true → isSurrogate c = false) →
  validUtf16 (dropWhile p s) = validUtf16 s.
Proof.
  intros Hp. rewrite <- (takeWhile_dropWhile p s) at 2.
  rewrite validUtf16_app_plain; [done|].
  eapply Forall_impl; [apply takeWhile_Forall|]. exact Hp.
Qed.

Lemma validUtf16_dropWhileEnd (p : QChar → bool) (s : QString) :
  (∀ c, p c = true → isSurrogate c = false) →
  validUtf16 (dropWhileEnd p s) = validUtf16 s.
Proof.
  intros Hp. unfold dropWhileEnd.
  assert (s = reverse (dropWhile p (reverse s)) ++ reverse (takeWhile p (reverse s)))
    as Hs.
  { by rewrite <- reverse_app, takeWhile_dropWhile, reverse_involutive. }
  rewrite Hs at 2. rewrite validUtf16_app_plain_r; [done|].
  apply Forall_reverse. eapply Forall_impl; [apply takeWhile_Forall|]. exact Hp.
Qed.

(** Whitespace is no surrogate: trimming keeps a subject as well-formed as
    it was. *)
Lemma validUtf16_trimmed (s : QString) : validUtf16 (trimmed s) = validUtf16 s.
Proof.
  unfold trimmed. fold (dropWhileEnd isSpace (dropWhile isSpace s)).
  rewrite validUtf16_dropWhileEnd, validUtf16_dropWhile; [done|..];
    apply isSpace_plain.
Qed.

Lemma exec_plus_class (p : QChar → bool) (s : QString) :
  ∀ pos,
    exec (Plus (Class p)) pos s
    = match dropWhile (negb ∘ p) s with
      | [] => None
      | _ :: s' =>
          Some (takeWhile (negb ∘ p) s,
                MState (S (pos + length (takeWhile (negb ∘ p) s)) + length (takeWhile p s'))
                       (dropWhile p s') [])
      end.
Proof.
  induction s as [|c s IH]; intros pos; [done|].
  cbn [exec dropWhile takeWhile compose]. destruct (p c) eqn:Hc; cbn [negb].
  - destruct (first_plus_class p c s pos [] Hc) as [others ->].
    cbn [length]. by rewrite Nat.add_0_r.
  - rewrite run_plus_class_reject by done. rewrite IH.
    destruct (dropWhile (negb ∘ p) s); [done|]. cbn.
    do 3 f_equal. lia.
Qed.

Lemma filter_takeWhile_neg (p : QChar → bool) (s : QString) :
  filter (λ c, p c = false) (takeWhile (negb ∘ p) s) = takeWhile (negb ∘ p) s.
Proof.
  induction s as [|c s IH]; [done|]. cbn [takeWhile compose].
  destruct (p c) eqn:Hc; cbn [negb]; [done|].
  rewrite filter_cons, decide_True by done. by rewrite IH.
Qed.

Lemma filter_dropWhile (p : QChar → bool) (s : QString) :
  filter (λ c, p c = false) (dropWhile p s) = filter (λ c, p c = false) s.
Proof.
  induction s as [|c s IH]; [done|]. cbn [dropWhile].
  destruct (p c) eqn:Hc; [|done].
  by rewrite filter_cons, decide_False by congruence.
Qed.

Lemma filter_split (p : QChar → bool) (s : QString) :
  filter (λ c, p c = false) s
  = takeWhile (negb ∘ p) s ++ filter (λ c, p c = false) (dropWhile (negb ∘ p) s).
Proof.
  rewrite <- (filter_takeWhile_neg p s), <- filter_app.
  by rewrite takeWhile_dropWhile.
Qed.

Lemma pieces_plus_class (p : QChar → bool) (fuel : nat) :
  ∀ s pos, (length s < fuel)%nat →
    concat (pieces fuel (Plus (Class p)) pos s) = filter (λ c, p c = false) s.
Proof.
  induction fuel as [|fuel IH]; intros s pos Hlen; [lia|].
  cbn [pieces]. rewrite exec_plus_class, (filter_split p s).
  pose proof (dropWhile_length (negb ∘ p) s) as Hdrop.
  pose proof (takeWhile_dropWhile (negb ∘ p) s) as Hs.
  destruct (dropWhile (negb ∘ p) s) as [|c s'] eqn:Hd.
  - rewrite filter_nil, Hs. cbn. by rewrite app_nil_r.
  - apply dropWhile_head in Hd as Hc. cbn in Hc. apply negb_false_iff in Hc.
    cbn [m_pos m_rest]. rewrite bool_decide_eq_true_2 by lia.
    cbn [concat]. f_equal.
    rewrite IH.
    + by rewrite filter_cons, decide_False, filter_dropWhile by congruence.
    + pose proof (dropWhile_length p s'). cbn in Hdrop. lia.
Qed.

(** [normalizeAnswer] trims, lowercases, and drops every ASCII whitespace
    character and every hyphen. *)
Lemma normalizeAnswer_filter (raw : QString) :
  validUtf16 raw = true →
  normalizeAnswer raw = filter (λ c, removed c = false) (toLower (trimmed raw)).
Proof.
  intros Hraw. unfold normalizeAnswer, replace, parts, normalizeRe.
  rewrite validUtf16_toLower, validUtf16_trimmed, Hraw.
  pose proof (pieces_plus_class removed (S (length (toLower (trimmed raw))))
                (toLower (trimmed raw)) 0 ltac:(lia)) as Hp.
  fold removed. destruct (pieces _ _ _ _) as [|q qs']; [done|].
  rewrite <- Hp. cbn [concat]. f_equal. f_equal. exact (list_fmap_id qs').
Qed.


Lemma validUtf16_normalizeAnswer (x : QString) :
  validUtf16 x = true → validUtf16 (normalizeAnswer x) = true.
Proof.
  intros Hx. rewrite normalizeAnswer_filter by done.
  apply validUtf16_filter.
  - intros c Hc. destruct (removed c) eqn:Hr; [|done].
    apply removed_plain in Hr. congruence.
  - by rewrite validUtf16_toLower, validUtf16_trimmed.
Qed.

Lemma Forall_dropWhile (P : QChar → Prop) (p : QChar → bool) (s : QString) :
  Forall P s → Forall P (dropWhile p s).
Proof.
  induction 1 as [|c s Hc Hs IH]; cbn; [done|]. destruct (p c); by try constructor.
Qed.

Lemma Forall_trimmed (P : QChar → Prop) (s : QString) :
  Forall P s → Forall P (trimmed s).
Proof.
  intros Hs. unfold trimmed.
  by apply Forall_reverse, Forall_dropWhile, Forall_reverse, Forall_dropWhile.
Qed.

Lemma trimmed_no_space (s : QString) :
  Forall (λ c, isSpace c = false) s → trimmed s = s.
Proof.
  intros Hs. unfold trimmed.
  assert (∀ l, Forall (λ c, isSpace c = false) l → dropWhile isSpace l = l) as Hkeep.
  { intros l Hl. apply dropWhile_keep. intros c l' ->. by inversion Hl. }
  rewrite (Hkeep s) by done.
  rewrite Hkeep by (by apply Forall_reverse). apply reverse_involutive.
Qed.

Lemma filter_all {A} (P : A → Prop) `{!∀ x, Decision (P x)} (l : list A) :
  Forall P l → filter P l = l.
Proof.
  induction 1 as [|x l Hx _ IH]; [done|].
  by rewrite filter_cons, decide_True, IH by done.
Qed.

Lemma Forall_filter_both {A} (P Q : A → Prop) `{!∀ x, Decision (P x)} (l : list A) :
  Forall Q l → Forall (λ x, P x ∧ Q x) (filter P l).
Proof.
  induction 1 as [|x l Hx _ IH]; [done|].
  rewrite filter_cons. destruct (decide (P x)); [by constructor|done].
Qed.

(** What comes out of [normalizeAnswer]: lower case, none of the removed
    characters, and no whitespace if the input had only ASCII whitespace. *)
Lemma normalizeAnswer_chars (x : QString) :
  validUtf16 x = true →
  Forall (λ c, removed c = false ∧ toLowerChar c = c) (normalizeAnswer x).
Proof.
  intros Hv. rewrite normalizeAnswer_filter by done. apply Forall_filter_both.
  unfold toLower. apply Forall_fmap, Forall_forall. intros c _. apply toLowerChar_idem.
Qed.

Lemma normalizeAnswer_no_space (x : QString) :
  validUtf16 x = true →
  asciiSpaced x → Forall (λ c, isSpace c = false) (normalizeAnswer x).
Proof.
  intros Hv Hx. rewrite normalizeAnswer_filter by done.
  assert (Forall (λ c, isSpace c = true → re_space c = true) (toLower (trimmed x))) as Hl.
  { unfold toLower. apply Forall_fmap. apply Forall_trimmed.
    eapply Forall_impl; [exact Hx|]. intros c Hc. cbn.
    rewrite isSpace_toLowerChar. intros Hs.
    pose proof (removed_toLowerChar c) as Hr.
    apply Hc in Hs. apply re_space_spec in Hs. apply re_space_spec.
    destruct (toLowerChar_spec c) as [[Hd ->]|[Hd ->]]; lia. }
  eapply Forall_impl; [apply (Forall_filter_both _ _ _ Hl)|].
  intros c [Hrem Hc]. cbn in *. destruct (isSpace c) eqn:Hs; [|done].
  specialize (Hc eq_refl). unfold removed in Hrem. by rewrite Hc in Hrem.
Qed.

(** [normalizeAnswer] is idempotent on every well-formed string whose
    whitespace is all ASCII whitespace. *)
Lemma normalizeAnswer_idempotent (x : QString) :
  validUtf16 x = true →
  asciiSpaced x → normalizeAnswer (normalizeAnswer x) = normalizeAnswer x.
Proof.
  intros Hv Hx.
  rewrite (normalizeAnswer_filter (normalizeAnswer x))
    by (by apply validUtf16_normalizeAnswer).
  rewrite trimmed_no_space by (by apply normalizeAnswer_no_space).
  pose proof (normalizeAnswer_chars x Hv) as Hc.
  assert (toLower (normalizeAnswer x) = normalizeAnswer x) as ->.
  { unfold toLower. induction Hc as [|c l [_ Hc] _ IH]; [done|].
    cbn. by rewrite Hc, IH. }
  apply filter_all. eapply Forall_impl; [exact Hc|]. by intros c [? _].
Qed.

Example normalizeAnswer_idempotent_new_york :
  normalizeAnswer (normalizeAnswer (qs " New - York ")) = normalizeAnswer (qs " New - York ").
Proof.
  apply (normalizeAnswer_idempotent (qs " New - York ")); [reflexivity|].
  apply (bool_decide_unpack _). by vm_compute.
Qed.

(** C5. [normalizeAnswer] is not idempotent as the code stands.  The ends
    are trimmed of every Unicode whitespace character, the inside is cleared
    of ASCII whitespace only: in "-", U+00A0, "a" the no-break space is laid
    bare by the first pass and trimmed by the second. *)
Theorem normalizeAnswer_not_idempotent :
  normalizeAnswer (qs "-" ++ [160] ++ qs "a") = [160] ++ qs "a"
  ∧ normalizeAnswer (normalizeAnswer (qs "-" ++ [160] ++ qs "a")) = qs "a"
  ∧ normalizeAnswer (normalizeAnswer (qs "-" ++ [160] ++ qs "a"))
    ≠ normalizeAnswer (qs "-" ++ [160] ++ qs "a").
Proof. split_and!; [reflexivity..|by vm_compute]. Qed.

Lemma filter_lower_dropWhile (s : QString) :
  asciiSpaced s →
  filter (λ c, removed c = false) (toLower (dropWhile isSpace s))
  = filter (λ c, removed c = false) (toLower s).
Proof.
  induction 1 as [|c s Hc _ IH]; [done|]. cbn [dropWhile].
  destruct (isSpace c) eqn:Hs; [|done].
  rewrite IH. unfold toLower. rewrite fmap_cons, filter_cons, decide_False; [done|].
  rewrite removed_toLowerChar, removed_separator; auto.
Qed.

(** On a string with only ASCII whitespace the trimming adds nothing. *)
Lemma normalizeAnswer_asciiSpaced (x : QString) :
  validUtf16 x = true →
  asciiSpaced x →
  normalizeAnswer x = filter (λ c, removed c = false) (toLower x).
Proof.
  intros Hv Hx. rewrite normalizeAnswer_filter by done. unfold trimmed.
  assert (∀ l, toLower (reverse l) = reverse (toLower l)) as Hrev
    by (intros l; apply fmap_reverse).
  rewrite Hrev, filter_reverse.
  rewrite (filter_lower_dropWhile (reverse (dropWhile isSpace x)))
    by (by apply Forall_reverse, Forall_dropWhile).
  rewrite Hrev, filter_reverse, reverse_involutive.
  by apply filter_lower_dropWhile.
Qed.

Lemma differ_filter (x y : QString) :
  differOnlyInCaseSpaceHyphen x y → asciiSpaced x → asciiSpaced y →
  filter (λ c, removed c = false) (toLower x)
  = filter (λ c, removed c = false) (toLower y).
Proof.
  unfold toLower.
  induction 1 as [|c x y Hc _ IH|c x y Hc _ IH|c d x y Hcd _ IH]; intros Hx Hy.
  - done.
  - apply Forall_cons in Hx as [Hcx Hx].
    rewrite fmap_cons, filter_cons, decide_False; [by apply IH|].
    rewrite removed_toLowerChar, removed_separator; auto.
  - apply Forall_cons in Hy as [Hcy Hy].
    rewrite fmap_cons, filter_cons, decide_False; [by apply IH|].
    rewrite removed_toLowerChar, removed_separator; auto.
  - apply Forall_cons in Hx as [_ Hx]. apply Forall_cons in Hy as [_ Hy].
    rewrite !fmap_cons, !filter_cons, Hcd, IH by done. done.
Qed.

(** [normalizeAnswer] lowercases and removes every ASCII whitespace
    character and every hyphen, so two well-formed strings whose whitespace
    is all ASCII whitespace and that differ only in letter case, whitespace
    and hyphens normalize to the same string; "New-York", " new york " and
    "NEWYORK" all normalize to "newyork". *)
Lemma normalizeAnswer_insensitive (x y : QString) :
  validUtf16 x = true → validUtf16 y = true →
  asciiSpaced x → asciiSpaced y →
  differOnlyInCaseSpaceHyphen x y →
  normalizeAnswer x = normalizeAnswer y
  ∧ normalizeAnswer x = filter (λ c, removed c = false) (toLower x)
  ∧ Forall (λ c, isSpace c = false ∧ c ≠ 45 ∧ toLowerChar c = c) (normalizeAnswer x)
  ∧ normalizeAnswer (qs "New-York") = qs "newyork"
  ∧ normalizeAnswer (qs " new york ") = qs "newyork"
  ∧ normalizeAnswer (qs "NEWYORK") = qs "newyork".
Proof.
  intros Hvx Hvy Hx Hy Hd. split_and!; try reflexivity.
  - rewrite !normalizeAnswer_asciiSpaced by done. by apply differ_filter.
  - by apply normalizeAnswer_asciiSpaced.
  - pose proof (normalizeAnswer_no_space x Hvx Hx) as Hs.
    pose proof (normalizeAnswer_chars x Hvx) as Hc.
    rewrite Forall_forall in Hs, Hc. apply Forall_forall. intros c Hin.
    destruct (Hc c Hin) as [Hrem Hlow]. split_and!; [by apply Hs|..|done].
    intros ->. by vm_compute in Hrem.
Qed.

Example normalizeAnswer_insensitive_new_york :
  normalizeAnswer (qs "New - York") = normalizeAnswer (qs "newYork").
Proof.
  apply (normalizeAnswer_insensitive (qs "New - York") (qs "newYork"));
    [reflexivity|reflexivity|..].
  - apply (bool_decide_unpack _). by vm_compute.
  - apply (bool_decide_unpack _). by vm_compute.
  - apply differ_case; [done|]. apply differ_case; [done|]. apply differ_case; [done|].
    apply differ_skip_l; [by left|]. apply differ_skip_l; [by right|].
    apply differ_skip_l; [by left|].
    apply differ_case; [done|]. apply differ_case; [done|].
    apply differ_case; [done|]. apply differ_case; [done|]. apply differ_nil.
Qed.

(** C4. [normalizeAnswer] does not remove all whitespace as the code
    stands: "new york" written with a no-break space (U+00A0) and "newyork"
    differ only in whitespace, and the first keeps its space.  [evaluate]
    then marks the answer "new york" wrong against that key. *)
Theorem normalizeAnswer_keeps_nbsp :
  differOnlyInCaseSpaceHyphen (qs "new" ++ [160] ++ qs "york") (qs "newyork")
  ∧ normalizeAnswer (qs "new" ++ [160] ++ qs "york") = qs "new" ++ [160] ++ qs "york"
  ∧ normalizeAnswer (qs "newyork") = qs "newyork"
  ∧ normalizeAnswer (qs "new" ++ [160] ++ qs "york") ≠ normalizeAnswer (qs "newyork")
  ∧ evaluate nbspPanel = Some (relabel [statusText false] nbspPanel, (0, 1)%Z).
Proof.
  split_and!; [|reflexivity..|by vm_compute|by vm_compute].
  do 3 (apply differ_case; [done|]). apply differ_skip_l; [by left|].
  do 4 (apply differ_case; [done|]). apply differ_nil.
Qed.

(** ** Parsing pasted keys: lines *)

Lemma split_app (sep : QChar) (t1 t2 : QString) :
  split sep (t1 ++ sep :: t2) = split sep t1 ++ split sep t2.
Proof.
  induction t1 as [|c t1 IH]; cbn.
  - by rewrite N.eqb_refl.
  - destruct (c =? sep); [by rewrite IH|]. rewrite IH.
    by destruct (split_cons_inv sep t1) as (q & qs' & ->).
Qed.

Lemma parseAnswerText_app (t1 t2 : QString) :
  parseAnswerText (t1 ++ [10] ++ t2) = foldl parseLine (parseAnswerText t1) (split 10 t2).
Proof. unfold parseAnswerText. cbn [app]. by rewrite split_app, foldl_app. Qed.

Lemma parseAnswerText_line (line : QString) :
  10 ∉ line → parseAnswerText line = parseLine ∅ line.
Proof. intros Hlf. unfold parseAnswerText. by rewrite split_no_sep. Qed.

Lemma foldCase_letter (c d : QChar) :
  97 ≤ d ≤ 122 → toLowerChar c = d → foldCase c = d ∧ foldCase d = d.
Proof.
  intros Hd Hc. unfold foldCase.
  destruct (N.eqb_spec c 181) as [->|?]; [vm_compute in Hc; lia|].
  destruct (N.eqb_spec c 383) as [->|?]; [vm_compute in Hc; lia|].
  destruct (N.eqb_spec c 8490) as [->|?]; [vm_compute in Hc; lia|].
  destruct (N.eqb_spec d 181) as [->|?]; [lia|].
  destruct (N.eqb_spec d 383) as [->|?]; [lia|].
  destruct (N.eqb_spec d 8490) as [->|?]; [lia|].
  split; [done|].
  destruct (toLowerChar_spec d) as [[H ->]|[H ->]]; lia.
Qed.

Lemma startsWith_ci_begins (word s : QString) :
  Forall (λ d, 97 ≤ d ≤ 122) word → beginsNoCase word s → startsWith_ci word s = true.
Proof.
  intros Hw (pre & rest & -> & Hpre). revert pre Hpre.
  induction Hw as [|d word Hd _ IH]; intros pre Hpre; [done|].
  destruct pre as [|c pre]; [done|]. cbn in Hpre. simplify_eq.
  cbn [startsWith_ci app].
  destruct (foldCase_letter c (toLowerChar c) Hd eq_refl) as [-> ->].
  rewrite N.eqb_refl. cbn. by apply IH.
Qed.

Lemma parseLine_skipped (mapping : gmap Z QString) (line : QString) :
  skippedLine line → parseLine mapping line = mapping.
Proof.
  unfold parseLine. intros [H|[H|[H|[[rest H]|H]]]].
  - by rewrite H.
  - destruct (isEmpty _); [done|].
    rewrite (startsWith_ci_begins (qs "part")); [done| |done].
    apply (bool_decide_unpack _). by vm_compute.
  - destruct (isEmpty _); [done|].
    rewrite (startsWith_ci_begins (qs "passage")); [by rewrite orb_true_r| |done].
    apply (bool_decide_unpack _). by vm_compute.
  - rewrite H. cbn. by rewrite !orb_true_r.
  - rewrite H. by repeat case_match.
Qed.

(** C7. A line that is empty once trimmed, or begins with "part", "passage"
    or "(" whatever the case, or does not match the line pattern, adds
    nothing: the text parses as it does without the line, wherever the line
    stands.  No input is an error: the text "Part 1\n1  Yes" gives
    {1: "Yes"}, and a text with nothing to read gives the empty mapping. *)
Theorem parseAnswerText_skips (line t1 t2 : QString) :
  10 ∉ line → skippedLine line →
  parseAnswerText line = ∅
  ∧ parseAnswerText (line ++ [10] ++ t2) = parseAnswerText t2
  ∧ parseAnswerText (t1 ++ [10] ++ line) = parseAnswerText t1
  ∧ parseAnswerText (t1 ++ [10] ++ line ++ [10] ++ t2) = parseAnswerText (t1 ++ [10] ++ t2)
  ∧ parseAnswerText (qs "Part 1" ++ [10] ++ qs "1  Yes") = {[ 1%Z := qs "Yes" ]}
  ∧ parseAnswerText [] = ∅.
Proof.
  intros Hlf Hskip.
  assert (parseAnswerText line = ∅) as Hline
    by (by rewrite parseAnswerText_line, parseLine_skipped).
  split_and!.
  - done.
  - unfold parseAnswerText in *. cbn [app]. rewrite split_app, foldl_app.
    by rewrite Hline.
  - rewrite parseAnswerText_app, split_no_sep by done. cbn.
    by apply parseLine_skipped.
  - rewrite !parseAnswerText_app. cbn [app]. rewrite split_app, foldl_app.
    rewrite split_no_sep by done. cbn [foldl]. by rewrite parseLine_skipped.
  - by vm_compute.
  - done.
Qed.

Lemma parseAnswerText_skips_witness :
  parseAnswerText (qs "1  Yes" ++ [10] ++ qs " PASSAGE two " ++ [10] ++ qs "2  No")
  = parseAnswerText (qs "1  Yes" ++ [10] ++ qs "2  No").
Proof.
  apply (parseAnswerText_skips (qs " PASSAGE two ") (qs "1  Yes") (qs "2  No")).
  - apply (bool_decide_unpack _). by vm_compute.
  - right. right. left. exists (qs "PASSAGE"), (qs " two"). by split.
Defined.

(** ** Trimming *)

Lemma dropWhile_snoc (p : QChar → bool) (l : QString) (c : QChar) :
  dropWhile p (l ++ [c])
  = match dropWhile p l with
    | [] => if p c then [] else [c]
    | d :: l' => d :: l' ++ [c]
    end.
Proof.
  induction l as [|d l IH]; cbn; [done|]. destruct (p d); [exact IH|done].
Qed.

Lemma dropWhile_sub (p q : QChar → bool) (s : QString) :
  (∀ c, p c = true → q c = true) →
  dropWhile q (dropWhile p s) = dropWhile q s.
Proof.
  intros Hpq. induction s as [|c s IH]; cbn; [done|].
  destruct (p c) eqn:Hp; [by rewrite (Hpq c Hp)|done].
Qed.

Lemma trimmed_rtrim (s : QString) : trimmed s = rtrim (dropWhile isSpace s).
Proof. done. Qed.

Section DropWhileEnd.
Variable p : QChar → bool.

Lemma dropWhileEnd_cons (c : QChar) (s : QString) :
  dropWhileEnd p (c :: s)
  = match dropWhileEnd p s with
    | [] => if p c then [] else [c]
    | d :: t => c :: d :: t
    end.
Proof.
  unfold dropWhileEnd. rewrite reverse_cons, dropWhile_snoc.
  destruct (dropWhile p (reverse s)) as [|d l] eqn:Hd.
  - rewrite reverse_nil. by destruct (p c).
  - change (d :: l ++ [c]) with ((d :: l) ++ [c]).
    rewrite reverse_app. cbn [reverse app].
    destruct (reverse (d :: l)) eqn:Hr; [|done].
    apply (f_equal reverse) in Hr. by rewrite reverse_involutive in Hr.
Qed.

Lemma dropWhileEnd_app (a b : QString) :
  dropWhileEnd p b ≠ [] → dropWhileEnd p (a ++ b) = a ++ dropWhileEnd p b.
Proof.
  intros Hb. induction a as [|c a IH]; [done|].
  cbn [app]. rewrite dropWhileEnd_cons, IH.
  destruct (a ++ dropWhileEnd p b) eqn:Hab; [|done].
  by apply app_eq_nil in Hab as [_ ?].
Qed.

Lemma dropWhileEnd_idem (s : QString) :
  dropWhileEnd p (dropWhileEnd p s) = dropWhileEnd p s.
Proof.
  induction s as [|c s IH]; [done|]. rewrite dropWhileEnd_cons.
  destruct (dropWhileEnd p s) as [|d t] eqn:Hs.
  - destruct (p c) eqn:Hc; [done|]. rewrite dropWhileEnd_cons.
    change (dropWhileEnd p []) with (@nil N). by rewrite Hc.
  - rewrite dropWhileEnd_cons, IH. done.
Qed.

Lemma dropWhile_dropWhileEnd (s : QString) :
  dropWhile p (dropWhileEnd p s) = dropWhileEnd p (dropWhile p s).
Proof.
  induction s as [|c s IH]; [done|]. cbn [dropWhile]. rewrite dropWhileEnd_cons.
  destruct (p c) eqn:Hc.
  - rewrite <- IH. destruct (dropWhileEnd p s); [done|]. cbn. by rewrite Hc.
  - rewrite dropWhileEnd_cons. destruct (dropWhileEnd p s); cbn; by rewrite Hc.
Qed.




Lemma stopsAt_dropWhile (s : QString) : stopsAt p (dropWhile p s).
Proof. intros c s' H. by eapply dropWhile_head. Qed.

End DropWhileEnd.

Lemma rtrim_app (a b : QString) : rtrim b ≠ [] → rtrim (a ++ b) = a ++ rtrim b.
Proof. apply dropWhileEnd_app. Qed.

Lemma rtrim_idem (s : QString) : rtrim (rtrim s) = rtrim s.
Proof. apply dropWhileEnd_idem. Qed.

Lemma ltrim_rtrim (s : QString) :
  dropWhile isSpace (rtrim s) = rtrim (dropWhile isSpace s).
Proof. apply dropWhile_dropWhileEnd. Qed.

Lemma trimmed_idem (s : QString) : trimmed (trimmed s) = trimmed s.
Proof.
  rewrite !trimmed_rtrim, ltrim_rtrim, rtrim_idem.
  f_equal. by apply dropWhile_sub.
Qed.





(** ** Parsing pasted keys: the line pattern *)





Lemma run_seq (a b : pattern) (st : mstate) :
  run (Seq a b) st = run a st ≫= run b.
Proof. done. Qed.






Lemma digit_not_space (c : QChar) : re_digit c = true → re_space c = false.
Proof.
  unfold re_digit. rewrite in_range_spec. intros Hc.
  apply not_true_iff_false. rewrite re_space_spec. lia.
Qed.








(** ** Parsing pasted keys: the answers of a line *)











Lemma stopsAt_weaken (p q : QChar → bool) (s : QString) :
  (∀ c, p c = true → q c = true) → stopsAt q s → stopsAt p s.
Proof.
  intros Hpq Hs c s' ->. specialize (Hs c s' eq_refl).
  destruct (p c) eqn:Hp; [|done]. apply Hpq in Hp. congruence.
Qed.

Lemma trimmed_stops (s : QString) :
  stopsAt re_space (trimmed s) ∧ stopsAt re_space (reverse (trimmed s)).
Proof.
  split.
  - apply (stopsAt_weaken _ isSpace); [apply re_space_isSpace|].
    rewrite trimmed_rtrim, <- ltrim_rtrim. apply stopsAt_dropWhile.
  - apply (stopsAt_weaken _ isSpace); [apply re_space_isSpace|].
    unfold trimmed. rewrite reverse_involutive. apply stopsAt_dropWhile.
Qed.


(** ** Parsing pasted keys: numbers and entries *)

Lemma split_joined (sep : QChar) (part : QString) (parts : list QString) :
  Forall (λ q, sep ∉ q) (part :: parts) →
  split sep (joined sep (part :: parts)) = part :: parts.
Proof.
  revert part. induction parts as [|q parts IH]; intros part Hparts.
  - cbn. rewrite app_nil_r. apply split_no_sep. by inversion Hparts.
  - apply Forall_cons in Hparts as [Hpart Hparts].
    change (joined sep (part :: q :: parts))
      with (part ++ sep :: joined sep (q :: parts)).
    rewrite split_app_sep by done. f_equal. by apply (IH q).
Qed.


Lemma lastWins_cons (e : Z * QString) (entries : list (Z * QString)) (m : gmap Z QString) :
  lastWins (e :: entries) ∪ m = lastWins entries ∪ <[e.1 := e.2]> m.
Proof.
  unfold lastWins. rewrite reverse_cons, list_to_map_app. cbn.
  rewrite <- (assoc_L (∪)). f_equal. destruct e as [q a]. cbn.
  by rewrite <- insert_union_l, (left_id_L ∅ (∪)).
Qed.

(** The loop over the numbers of a line adds the entries of the line, a
    later one overwriting an earlier one. *)
Lemma assign_entries (answers : list QString) (numberParts : list QString) :
  ∀ i mapping,
    assign answers i numberParts mapping
    = lastWins (omap id (imap (λ j, spec_entry answers (i + j)) numberParts)) ∪ mapping.
Proof.
  induction numberParts as [|part parts IH]; intros i mapping.
  - cbn. unfold lastWins. cbn. by rewrite (left_id_L ∅ (∪)).
  - cbn [assign]. rewrite IH, imap_cons. cbn [omap list_omap].
    rewrite Nat.add_0_r.
    rewrite (imap_ext ((λ j, spec_entry answers (i + j)) ∘ S)
                      (λ j, spec_entry answers (S i + j)))
      by (intros j x _; cbn; f_equal; lia).
    change (id (spec_entry answers i part)) with (spec_entry answers i part).
    unfold spec_entry at 2, kNumQuestions.
    destruct (toInt part) as [q|]; [|done].
    bind_some. case_bool_decide; case_bool_decide; try lia; [done|].
    by rewrite lastWins_cons.
Qed.

Lemma parseLine_union (mapping : gmap Z QString) (line : QString) :
  parseLine mapping line = parseLine ∅ line ∪ mapping.
Proof.
  unfold parseLine.
  repeat (case_match; try by rewrite (left_id_L ∅ (∪)));
    rewrite !assign_entries; by rewrite (right_id_L ∅ (∪)).
Qed.

Lemma foldl_parseLine_union (lines : list QString) :
  ∀ mapping, foldl parseLine mapping lines = foldl parseLine ∅ lines ∪ mapping.
Proof.
  induction lines as [|line lines IH]; intros mapping; cbn [foldl].
  - by rewrite (left_id_L ∅ (∪)).
  - rewrite IH, (IH (parseLine ∅ line)), (parseLine_union mapping).
    by rewrite (assoc_L (∪)).
Qed.

(** Later lines overwrite earlier ones. *)
Lemma parseAnswerText_later_wins (t1 t2 : QString) :
  parseAnswerText (t1 ++ [10] ++ t2) = parseAnswerText t2 ∪ parseAnswerText t1.
Proof. rewrite parseAnswerText_app. apply foldl_parseLine_union. Qed.









Lemma assign_inRange (answers numberParts : list QString) :
  ∀ i mapping, inRange mapping → inRange (assign answers i numberParts mapping).
Proof.
  induction numberParts as [|part parts IH]; intros i mapping Hm; [done|].
  cbn [assign]. apply IH. destruct (toInt part) as [qNum|]; [|done].
  case_bool_decide; [done|]. intros q a.
  rewrite lookup_insert. case_decide; [|by apply Hm]. intros _. lia.
Qed.

Lemma parseLine_inRange (mapping : gmap Z QString) (line : QString) :
  inRange mapping → inRange (parseLine mapping line).
Proof.
  intros Hm. unfold parseLine. repeat (case_match; try done); by apply assign_inRange.
Qed.

(** No question number outside 1..40 is ever stored. *)
Lemma parseAnswerText_inRange (text : QString) : inRange (parseAnswerText text).
Proof.
  unfold parseAnswerText. generalize (split 10 text) as lines.
  assert (inRange ∅) as Hm by (by intros q a).
  revert Hm. generalize (∅ : gmap Z QString) as m.
  intros m Hm lines. revert m Hm.
  induction lines as [|l lines IH]; intros m Hm; [done|].
  cbn. by apply IH, parseLine_inRange.
Qed.



Example spec_entries_21_22 :
  lastWins (spec_entries [qs "21"; qs "22"] (spec_answers (trimmed (qs "A, E"))))
  = {[ 21%Z := qs "A"; 22%Z := qs "E" ]}.
Proof. by vm_compute. Qed.

Example spec_entries_reuse :
  spec_entries [qs "0"; qs "41"; qs "7"; qs "8"] (spec_answers (qs "a , b ,, c"))
  = [(7%Z, qs "c"); (8%Z, qs "c")].
Proof. by vm_compute. Qed.

(** ** The panel's other members *)

Lemma fmap_empty_replicate {A} (l : list A) :
  (λ _, [] : QString) <$> l = replicate (length l) [].
Proof. induction l as [|x l IH]; cbn; [done|]. by rewrite IH. Qed.

Lemma trimmed_replicate_nil (n : nat) :
  trimmed <$> replicate n ([] : QString) = replicate n [].
Proof. induction n as [|n IH]; cbn; [done|]. by rewrite IH. Qed.

Lemma parallel_relabel (labels : list QString) (p : SectionPanel) :
  parallel p → length labels = length (userEdits_ p) → parallel (relabel labels p).
Proof. intros [Hk Hs] Hl. by split. Qed.

Lemma length_slots (p : SectionPanel) :
  parallel p → length (slots p) = length (userEdits_ p).
Proof.
  intros [Hk Hs]. unfold slots, answers, answerKeys.
  rewrite length_zip, !length_fmap. lia.
Qed.

Lemma parallel_resetFeedback (p : SectionPanel) : parallel p → parallel (resetFeedback p).
Proof. intros [Hk Hs]. split; [done|]. cbn. by rewrite length_fmap. Qed.

(** Slots without a key: nothing is evaluated and no slot gets a verdict. *)
Lemma no_keys_no_verdict (l : list (QString * QString)) :
  Forall (λ s, s.2 = []) l →
  countCorrect l = 0%Z ∧ countEvaluated l = 0%Z
  ∧ (verdictText ∘ slotVerdict) <$> l = replicate (length l) [].
Proof.
  induction 1 as [|[u k] l Hk _ (IHc & IHe & IHv)]; [done|].
  cbn in Hk. subst k. rewrite countCorrect_cons, countEvaluated_cons.
  cbn. rewrite IHc, IHe. split_and!; [done..|]. f_equal. exact IHv.
Qed.

(** X1. Evaluating is settled after one round: on a panel whose vectors run
    in parallel, [evaluate] on the panel it has left returns the same pair
    and changes nothing more, and the marks the panel had before have no
    influence on the result. *)
Theorem evaluate_settled (p : SectionPanel) :
  parallel p →
  ∃ p' tally,
    evaluate p = Some (p', tally)
    ∧ evaluate p' = Some (p', tally)
    ∧ evaluate (resetFeedback p) = Some (p', tally).
Proof.
  intros Hp. eexists _, _. split; [by apply evaluate_result|]. split.
  - rewrite evaluate_result; [done|].
    apply parallel_relabel; [done|]. by rewrite length_fmap, length_slots.
  - rewrite evaluate_result by (by apply parallel_resetFeedback). done.
Qed.

Lemma evaluate_settled_witness :
  ∃ p' tally,
    evaluate demoPanel = Some (p', tally)
    ∧ evaluate p' = Some (p', tally)
    ∧ evaluate (resetFeedback demoPanel) = Some (p', tally).
Proof. apply (evaluate_settled demoPanel). by split. Defined.

Lemma evaluate_step_visible (visible : bool) (i : nat) (acc : SectionPanel * (Z * Z)) :
  evaluate_step i (prod_map (setKeysVisible visible) id acc)
  = prod_map (setKeysVisible visible) id <$> evaluate_step i acc.
Proof.
  destruct acc as [p [c e]]. unfold evaluate_step. cbn.
  destruct (statusLabels_ p !! i); [|done]. cbn.
  destruct (keyEdits_ p !! i) as [k|]; [|done]. cbn.
  destruct (isEmpty (trimmed k)); [done|].
  destruct (userEdits_ p !! i) as [u|]; [|done]. done.
Qed.

Lemma evaluate_loop_visible (visible : bool) (n : nat) :
  ∀ i acc,
    evaluate_loop i n (prod_map (setKeysVisible visible) id acc)
    = prod_map (setKeysVisible visible) id <$> evaluate_loop i n acc.
Proof.
  induction n as [|n IH]; intros i acc; cbn [evaluate_loop]; [done|].
  rewrite evaluate_step_visible. destruct (evaluate_step i acc) as [acc'|]; [|done].
  cbn. apply IH.
Qed.

(** X2. Hiding or showing the keys changes neither the answers, nor the
    keys, nor the marks, nor what [evaluate] finds: evaluating a panel after
    [setKeysVisible] gives the result of evaluating it before, with the flag
    set; and the last call of [setKeysVisible] decides the flag. *)
Theorem setKeysVisible_evaluate (visible visible' : bool) (p : SectionPanel) :
  evaluate (setKeysVisible visible p)
  = prod_map (setKeysVisible visible) id <$> evaluate p
  ∧ answers (setKeysVisible visible p) = answers p
  ∧ answerKeys (setKeysVisible visible p) = answerKeys p
  ∧ statusLabels_ (setKeysVisible visible p) = statusLabels_ p
  ∧ setKeysVisible visible (setKeysVisible visible' p) = setKeysVisible visible p.
Proof.
  split_and!; try done.
  exact (evaluate_loop_visible visible (length (userEdits_ p)) 0 (p, (0, 0)%Z)).
Qed.

(** X3. [clearAnswers] empties every answer and keeps every key,
    [clearKeys] empties every key and keeps every answer; both clear every
    mark and keep the number of questions.  After [clearKeys] nothing is
    left to evaluate: [evaluate] returns (0, 0) and leaves the panel as it
    is. *)
Theorem clear_members (p : SectionPanel) :
  parallel p →
  answers (clearAnswers p) = replicate (length (userEdits_ p)) []
  ∧ answerKeys (clearAnswers p) = answerKeys p
  ∧ answerKeys (clearKeys p) = replicate (length (userEdits_ p)) []
  ∧ answers (clearKeys p) = answers p
  ∧ statusLabels_ (clearAnswers p) = replicate (length (userEdits_ p)) []
  ∧ statusLabels_ (clearKeys p) = replicate (length (userEdits_ p)) []
  ∧ questionCount (clearAnswers p) = questionCount p
  ∧ questionCount (clearKeys p) = questionCount p
  ∧ evaluate (clearKeys p) = Some (clearKeys p, (0, 0)%Z).
Proof.
  intros [Hk Hs].
  assert (parallel (clearKeys p)) as Hpar.
  { split; cbn; by rewrite length_fmap. }
  assert (answerKeys (clearKeys p) = replicate (length (userEdits_ p)) []) as Hkeys.
  { unfold answerKeys. cbn. by rewrite fmap_empty_replicate, trimmed_replicate_nil, Hk. }
  split_and!; try done.
  - unfold answers. cbn. by rewrite fmap_empty_replicate, trimmed_replicate_nil.
  - cbn. by rewrite fmap_empty_replicate, Hs.
  - cbn. by rewrite fmap_empty_replicate, Hs.
  - unfold questionCount. cbn. by rewrite length_fmap.
  - rewrite evaluate_result by done.
    assert (Forall (λ s, s.2 = []) (slots (clearKeys p))) as Hslots.
    { unfold slots. rewrite Hkeys. apply Forall_forall. intros [u k] Hin.
      apply elem_of_zip_r in Hin. cbn in *. by apply elem_of_replicate in Hin as [-> _]. }
    destruct (no_keys_no_verdict _ Hslots) as (-> & -> & ->).
    rewrite length_slots by done. cbn.
    unfold relabel, clearKeys, resetFeedback. cbn.
    by rewrite (fmap_empty_replicate (statusLabels_ p)), Hs.
Qed.

Lemma clear_members_witness :
  answers (clearAnswers demoPanel) = [[]; []; []]
  ∧ answerKeys (clearAnswers demoPanel) = [qs "paris"; []; qs "a"]
  ∧ evaluate (clearKeys demoPanel) = Some (clearKeys demoPanel, (0, 0)%Z).
Proof.
  pose proof (clear_members demoPanel ltac:(by split)) as (Ha & Hk & _ & _ & _ & _ & _ & _ & He).
  split_and!; [exact Ha | by rewrite Hk | exact He].
Defined.

(** Slots that all agree: every one is evaluated and counted correct. *)
Lemma all_correct (l : list (QString * QString)) :
  Forall (λ s, slotVerdict s = Correct) l →
  countCorrect l = Z.of_nat (length l) ∧ countEvaluated l = Z.of_nat (length l)
  ∧ (verdictText ∘ slotVerdict) <$> l = replicate (length l) (statusText true).
Proof.
  induction 1 as [|[u k] l Hs _ (IHc & IHe & IHv)]; [done|].
  rewrite countCorrect_cons, countEvaluated_cons, Hs.
  assert (isEmpty k = false) as Hk.
  { unfold slotVerdict in Hs. by destruct (isEmpty k). }
  cbn [snd]. rewrite Hk, IHc, IHe. cbn [length fmap list_fmap compose replicate].
  rewrite Hs. split_and!; [lia..|]. f_equal. exact IHv.
Qed.

Lemma filter_removed_nil (s : QString) :
  Forall (λ c, removed c = true) s → filter (λ c, removed c = false) (toLower s) = [].
Proof.
  induction 1 as [|c s Hc _ IH]; [done|].
  cbn [toLower fmap list_fmap]. rewrite filter_cons.
  rewrite decide_False by (rewrite removed_toLowerChar, Hc; done). exact IH.
Qed.

(** X4. A key made of hyphens (and ASCII blanks) is not empty, so its
    question is evaluated, and it normalizes to the empty string, which is
    what a blank answer normalizes to: on a panel with such keys and blank
    answers, [evaluate] counts every question as correct. *)
Theorem evaluate_blank_matches_hyphens (p : SectionPanel) :
  parallel p →
  Forall (λ u, trimmed u = []) (userEdits_ p) →
  Forall (λ k, trimmed k ≠ [] ∧ Forall (λ c, removed c = true) k) (keyEdits_ p) →
  ∃ p', evaluate p = Some (p', (questionCount p, questionCount p))
        ∧ statusLabels_ p' = replicate (length (userEdits_ p)) (statusText true).
Proof.
  intros Hp Hu Hk. rewrite evaluate_result by done.
  assert (Forall (λ s, slotVerdict s = Correct) (slots p)) as Hslots.
  { apply Forall_forall. intros [u k] Hin. unfold slots, answers, answerKeys in Hin.
    pose proof (elem_of_zip_l _ _ _ _ Hin) as Hinu.
    pose proof (elem_of_zip_r _ _ _ _ Hin) as Hink.
    apply list_elem_of_fmap in Hinu as (u0 & -> & Hu0).
    apply list_elem_of_fmap in Hink as (k0 & -> & Hk0).
    rewrite Forall_forall in Hu, Hk.
    rewrite (Hu _ Hu0). destruct (Hk _ Hk0) as [Hne Hrem].
    unfold slotVerdict. destruct (trimmed k0) as [|c k'] eqn:Hk'; [done|].
    cbn [isEmpty]. rewrite <- Hk'. rewrite bool_decide_true; [done|].
    rewrite (normalizeAnswer_filter []) by done.
    rewrite (normalizeAnswer_filter (trimmed k0)).
    + rewrite (filter_removed_nil (trimmed (trimmed k0)))
        by (by do 2 apply Forall_trimmed).
      done.
    + apply validUtf16_all_plain, Forall_trimmed.
      eapply Forall_impl; [exact Hrem|]. apply removed_plain. }
  destruct (all_correct _ Hslots) as (-> & -> & Hv).
  rewrite length_slots by done. eexists. split; [done|]. cbn.
  by rewrite Hv, length_slots.
Qed.

Lemma evaluate_blank_matches_hyphens_witness :
  ∃ p', evaluate hyphenPanel = Some (p', (2, 2)%Z)
        ∧ statusLabels_ p' = [statusText true; statusText true].
Proof.
  apply (evaluate_blank_matches_hyphens hyphenPanel).
  - by split.
  - by repeat constructor.
  - repeat constructor; by vm_compute.
Defined.

Lemma applyLoop_lookup (mapping : gmap Z QString) (edits : list QString) :
  ∀ index i,
    applyLoop mapping index edits !! i
    = (λ edit, match mapping !! (Z.of_nat (index + i) + 1)%Z with
               | Some answer => setText answer
               | None => edit
               end) <$> edits !! i.
Proof.
  induction edits as [|edit edits IH]; intros index i; [done|].
  destruct i as [|i]; cbn.
  - by rewrite Nat.add_0_r.
  - rewrite IH. by replace (S index + i)%nat with (index + S i)%nat by lia.
Qed.

Lemma length_applyLoop (mapping : gmap Z QString) (edits : list QString) :
  ∀ index, length (applyLoop mapping index edits) = length edits.
Proof. induction edits as [|edit edits IH]; intros index; cbn; [done|]. by rewrite IH. Qed.

(** X5. [applyParsedAnswers] writes into the key edit of question [i + 1]
    the answer the mapping has for that number, cut to the 32 code units a
    line edit holds, and leaves the key edits of the other questions as they
    were; an entry whose number has no key edit is dropped.  The user's
    answers stay, and every mark is cleared. *)
Theorem applyParsedAnswers_keys (mapping : gmap Z QString) (p : SectionPanel) :
  (∀ i old, keyEdits_ p !! i = Some old →
     keyEdits_ (applyParsedAnswers mapping p) !! i
     = Some match mapping !! (Z.of_nat i + 1)%Z with
            | Some answer => take 32 answer
            | None => old
            end)
  ∧ (∀ i answer, (i < length (keyEdits_ p))%nat →
       mapping !! (Z.of_nat i + 1)%Z = Some answer →
       answerKeys (applyParsedAnswers mapping p) !! i = Some (trimmed (take 32 answer)))
  ∧ length (keyEdits_ (applyParsedAnswers mapping p)) = length (keyEdits_ p)
  ∧ userEdits_ (applyParsedAnswers mapping p) = userEdits_ p
  ∧ statusLabels_ (applyParsedAnswers mapping p)
    = replicate (length (statusLabels_ p)) []
  ∧ keysVisible_ (applyParsedAnswers mapping p) = keysVisible_ p.
Proof.
  assert (∀ i old, keyEdits_ p !! i = Some old →
     keyEdits_ (applyParsedAnswers mapping p) !! i
     = Some match mapping !! (Z.of_nat i + 1)%Z with
            | Some answer => take 32 answer
            | None => old
            end) as Hkeys.
  { intros i old Hi. cbn. by rewrite applyLoop_lookup, Hi. }
  split_and!; try done.
  - intros i answer Hi Hm. apply lookup_lt_is_Some in Hi as [old Hold].
    unfold answerKeys. by rewrite list_lookup_fmap, (Hkeys i old Hold), Hm.
  - cbn. apply length_applyLoop.
  - cbn. apply fmap_empty_replicate.
Qed.

Lemma applyLoop_union (m1 m2 : gmap Z QString) (edits : list QString) :
  ∀ index,
    applyLoop m2 index (applyLoop m1 index edits) = applyLoop (m2 ∪ m1) index edits.
Proof.
  induction edits as [|edit edits IH]; intros index; cbn; [done|].
  rewrite IH, lookup_union.
  by destruct (m2 !! _), (m1 !! _).
Qed.

(** X6. Applying one mapping and then another is applying their union, in
    which the second has the last word; so pasting two texts one after the
    other fills the keys as pasting the two texts as one, and applying a
    mapping twice is applying it once. *)
Theorem applyParsedAnswers_union (m1 m2 : gmap Z QString) (t1 t2 : QString)
    (p : SectionPanel) :
  applyParsedAnswers m2 (applyParsedAnswers m1 p) = applyParsedAnswers (m2 ∪ m1) p
  ∧ applyParsedAnswers (parseAnswerText t2) (applyParsedAnswers (parseAnswerText t1) p)
    = applyParsedAnswers (parseAnswerText (t1 ++ [10] ++ t2)) p
  ∧ applyParsedAnswers m1 (applyParsedAnswers m1 p) = applyParsedAnswers m1 p.
Proof.
  assert (∀ a b, applyParsedAnswers b (applyParsedAnswers a p)
                 = applyParsedAnswers (b ∪ a) p) as Hunion.
  { intros a b. unfold applyParsedAnswers, resetFeedback. cbn.
    rewrite applyLoop_union. f_equal. by rewrite <- list_fmap_compose. }
  split_and!.
  - apply Hunion.
  - by rewrite Hunion, parseAnswerText_later_wins.
  - by rewrite Hunion, (idemp_L (∪)).
Qed.

Lemma mjoin_empty_rows (groups : list GroupSpec) :
  let rows := mjoin ((λ g, replicate (Z.to_nat (count g)) ([] : QString)) <$> groups) in
  rows = replicate (length rows) []
  ∧ Z.of_nat (length rows) = foldr (λ g n, (Z.max 0 (count g) + n)%Z) 0%Z groups.
Proof.
  induction groups as [|g groups [IHr IHl]]; [done|]. cbn in *.
  remember (mjoin ((λ g, replicate (Z.to_nat (count g)) []) <$> groups)) as rows.
  rewrite length_app, length_replicate, replicate_add, <- IHr.
  split; [done|]. rewrite Nat2Z.inj_add, IHl. lia.
Qed.

(** X7. [buildGrid] makes as many questions as the counts of the groups add
    up to, a group with a count below one adding none; its three vectors run
    in parallel, every answer and every key is empty, and [evaluate] on the
    new panel returns (0, 0) and changes nothing. *)
Theorem buildGrid_rows (sectionName : QString) (groups : list GroupSpec) :
  questionCount (buildGrid sectionName groups)
  = foldr (λ g n, (Z.max 0 (count g) + n)%Z) 0%Z groups
  ∧ parallel (buildGrid sectionName groups)
  ∧ answers (buildGrid sectionName groups)
    = replicate (Z.to_nat (questionCount (buildGrid sectionName groups))) []
  ∧ answerKeys (buildGrid sectionName groups)
    = replicate (Z.to_nat (questionCount (buildGrid sectionName groups))) []
  ∧ evaluate (buildGrid sectionName groups)
    = Some (buildGrid sectionName groups, (0, 0)%Z).
Proof.
  destruct (mjoin_empty_rows groups) as [Hrows Hlen]. cbn zeta in Hrows, Hlen.
  assert (answerKeys (buildGrid sectionName groups)
    = replicate (Z.to_nat (questionCount (buildGrid sectionName groups))) []) as Hkeys.
  { unfold answerKeys, questionCount. cbn. rewrite Nat2Z.id.
    rewrite Hrows at 1. apply trimmed_replicate_nil. }
  split_and!; try done.
  rewrite evaluate_result by done.
  assert (Forall (λ s, s.2 = []) (slots (buildGrid sectionName groups))) as Hslots.
  { unfold slots. rewrite Hkeys. apply Forall_forall. intros [u k] Hin.
    apply elem_of_zip_r in Hin. cbn in *. by apply elem_of_replicate in Hin as [-> _]. }
  destruct (no_keys_no_verdict _ Hslots) as (-> & -> & ->).
  rewrite length_slots by done. unfold relabel, buildGrid. cbn.
  by rewrite <- Hrows.
Qed.

(** ** Normalization on every string *)

Lemma removed_skips (c : QChar) : removed c = true → isSpace c = true ∨ c = 45.
Proof.
  unfold removed, lit. intros [H|H]%orb_true_iff.
  - left. by apply re_space_isSpace.
  - right. by apply N.eqb_eq.
Qed.

Lemma filter_differ (x : QString) :
  ∀ y,
    filter (λ c, removed c = false) (toLower x)
    = filter (λ c, removed c = false) (toLower y) →
    differOnlyInCaseSpaceHyphen x y.
Proof.
  unfold toLower.
  induction x as [|c x IHx]; intros y.
  - induction y as [|d y IHy]; intros Hf; [constructor|].
    rewrite fmap_cons, filter_cons in Hf. rewrite removed_toLowerChar in Hf.
    destruct (removed d) eqn:Hd; [|by rewrite decide_True in Hf].
    rewrite decide_False in Hf by done.
    apply differ_skip_r; [by apply removed_skips|by apply IHy].
  - rewrite fmap_cons, filter_cons, removed_toLowerChar.
    destruct (removed c) eqn:Hc.
    { rewrite decide_False by done. intros Hf.
      apply differ_skip_l; [by apply removed_skips|by apply IHx]. }
    rewrite decide_True by done.
    induction y as [|d y IHy]; intros Hf; [done|].
    rewrite fmap_cons, filter_cons, removed_toLowerChar in Hf.
    destruct (removed d) eqn:Hd.
    + rewrite decide_False in Hf by done.
      apply differ_skip_r; [by apply removed_skips|by apply IHy].
    + rewrite decide_True in Hf by done. simplify_eq.
      apply differ_case; [done|by apply IHx].
Qed.

Lemma latin1_validUtf16 (s : QString) :
  Forall (λ c, c < 256) s → validUtf16 s = true.
Proof.
  intros Hs. apply validUtf16_all_plain. eapply Forall_impl; [exact Hs|].
  intros c Hc. cbv beta in Hc. apply not_true_iff_false.
  destruct (isSurrogate_spec c) as (_ & _ & ->). lia.
Qed.

(** X8. On strings of the characters U+0000..U+00FF whose whitespace is all
    ASCII, [normalizeAnswer] is the string in lower case without its
    whitespace and hyphens; it is idempotent there, and two such strings
    normalize to the same string exactly when they differ only in letter
    case, whitespace and hyphens. *)
Theorem normalizeAnswer_ascii (x y : QString) :
  Forall (λ c, c < 256) x → Forall (λ c, c < 256) y →
  asciiSpaced x → asciiSpaced y →
  normalizeAnswer x = filter (λ c, removed c = false) (toLower x)
  ∧ normalizeAnswer (normalizeAnswer x) = normalizeAnswer x
  ∧ (normalizeAnswer x = normalizeAnswer y ↔ differOnlyInCaseSpaceHyphen x y).
Proof.
  intros Hlx%latin1_validUtf16 Hly%latin1_validUtf16 Hx Hy. split_and!.
  - by apply normalizeAnswer_asciiSpaced.
  - by apply normalizeAnswer_idempotent.
  - rewrite !normalizeAnswer_asciiSpaced by done. split.
    + apply filter_differ.
    + intros Hd. by apply differ_filter.
Qed.

Lemma normalizeAnswer_ascii_witness :
  normalizeAnswer (qs "Well-Known ") = qs "wellknown"
  ∧ normalizeAnswer (normalizeAnswer (qs "Well-Known ")) = normalizeAnswer (qs "Well-Known ")
  ∧ (normalizeAnswer (qs "Well-Known ") = normalizeAnswer (qs "well known")
     ↔ differOnlyInCaseSpaceHyphen (qs "Well-Known ") (qs "well known")).
Proof.
  assert (∀ s, Forall (λ c, (c <? 128) = true) s → asciiSpaced s) as Hascii.
  { intros s Hs. eapply Forall_impl; [exact Hs|]. intros c Hc%N.ltb_lt.
    rewrite isSpace_spec, re_space_spec. lia. }
  apply (normalizeAnswer_ascii (qs "Well-Known ") (qs "well known"));
    first [ by repeat constructor | apply Hascii; by repeat constructor ].
Defined.


(** A surrogate pair passes through; next to an unpaired surrogate nothing
    is removed. *)
Example normalizeAnswer_surrogates :
  normalizeAnswer ([55357; 56832] ++ qs " A-b ") = [55357; 56832] ++ qs "ab"
  ∧ normalizeAnswer (qs "A b" ++ [55357]) = qs "a b" ++ [55357]
  ∧ normalizeAnswer (normalizeAnswer (qs "A b" ++ [55357])) = qs "a b" ++ [55357].
Proof. by split_and!. Qed.

(** ** Parsing pasted keys: what the matcher keeps *)

Lemma star_loop_clean (P : QChar → Prop) (step : mstate → list mstate) :
  (∀ st st', clean P st → st' ∈ step st → clean P st') →
  ∀ fuel st st', clean P st → st' ∈ star_loop step fuel st → clean P st'.
Proof.
  intros Hstep. induction fuel as [|fuel IH]; intros st st' Hst Hin; cbn in Hin.
  - apply list_elem_of_singleton in Hin. by subst.
  - apply elem_of_app in Hin as [Hin|Hin].
    + apply list_elem_of_bind in Hin as (st1 & Hin & Hin1).
      pose proof (Hstep _ _ Hst Hin1) as Hst1.
      case_bool_decide; [by eapply IH|].
      apply list_elem_of_singleton in Hin. by subst.
    + apply list_elem_of_singleton in Hin. by subst.
Qed.

(** The matcher moves along the subject: what remains and what the groups
    hold is made of the characters it started with. *)
Lemma run_clean (P : QChar → Prop) (r : pattern) :
  ∀ st st', clean P st → st' ∈ run r st → clean P st'.
Proof.
  induction r as [p| | |a IHa b IHb|a IHa|k a IHa]; intros st st' Hst Hin; cbn [run] in Hin.
  - destruct st as [pos [|c s] caps]; cbn in Hin; [by apply elem_of_nil in Hin|].
    destruct (p c); [|by apply elem_of_nil in Hin].
    apply list_elem_of_singleton in Hin. subst. destruct Hst as [Hr Hc].
    split; [by inversion Hr|done].
  - case_bool_decide; [|by apply elem_of_nil in Hin].
    apply list_elem_of_singleton in Hin. by subst.
  - assert (st' = st) as ->; [|done].
    destruct (m_rest st) as [|c l]; [by apply list_elem_of_singleton in Hin|].
    destruct l, c as [|c]; try (by apply elem_of_nil in Hin);
      repeat (destruct c as [c|c|]; cbn in Hin;
              try (by apply elem_of_nil in Hin);
              try (by apply list_elem_of_singleton in Hin)).
  - apply list_elem_of_bind in Hin as (st1 & Hin & Hin1). eauto.
  - eapply star_loop_clean; [exact IHa|exact Hst|exact Hin].
  - apply list_elem_of_bind in Hin as (st1 & Hin & Hin1).
    apply list_elem_of_singleton in Hin. subst.
    destruct (IHa _ _ Hst Hin1) as [Hr Hc]. split; [done|]. cbn.
    constructor; [|done]. cbn. apply Forall_take. by destruct Hst.
Qed.

Lemma exec_clean (P : QChar → Prop) (r : pattern) (s : QString) :
  ∀ pos before st,
    Forall P s → exec r pos s = Some (before, st) → Forall P before ∧ clean P st.
Proof.
  induction s as [|c s IH]; intros pos before st Hs He; cbn [exec] in He.
  - destruct (run r (MState pos [] [])) as [|st0 l] eqn:Hrun; [done|].
    simplify_eq. split; [done|].
    apply (run_clean P r (MState pos [] [])); [by split|]. rewrite Hrun. by left.
  - destruct (run r (MState pos (c :: s) [])) as [|st0 l] eqn:Hrun.
    + destruct (exec r (S pos) s) as [[b st1]|] eqn:Hrec; [|done].
      cbn in He. simplify_eq. apply Forall_cons in Hs as [Hc Hs].
      destruct (IH _ _ _ Hs Hrec) as [Hb Hst]. split; [by constructor|done].
    + simplify_eq. split; [done|].
      apply (run_clean P r (MState pos (c :: s) [])); [by split|]. rewrite Hrun. by left.
Qed.

Lemma pieces_clean (P : QChar → Prop) (r : pattern) (fuel : nat) :
  ∀ pos s, Forall P s → Forall (Forall P) (pieces fuel r pos s).
Proof.
  induction fuel as [|fuel IH]; intros pos s Hs; cbn [pieces]; [by repeat constructor|].
  destruct (exec r pos s) as [[before st]|] eqn:He; [|by repeat constructor].
  destruct (exec_clean P r s _ _ _ Hs He) as [Hb [Hr _]].
  case_bool_decide; [constructor; [done|by apply IH]|].
  destruct (m_rest st) as [|c s'] eqn:Hrest; [by repeat constructor|].
  apply Forall_cons in Hr as [Hc Hs'].
  pose proof (IH (S (m_pos st)) s' Hs') as Hrec.
  destruct (pieces fuel r (S (m_pos st)) s') as [|q qs']; [by repeat constructor|].
  apply Forall_cons in Hrec as [Hq Hqs]. by repeat constructor.
Qed.

Lemma split_re_clean (P : QChar → Prop) (r : pattern) (skipEmptyParts : bool) (s : QString) :
  Forall P s → Forall (Forall P) (split_re r skipEmptyParts s).
Proof.
  intros Hs. unfold split_re.
  assert (Forall (Forall P) (parts r s)) as Hp.
  { unfold parts. destruct (validUtf16 s); [by apply pieces_clean|by repeat constructor]. }
  destruct skipEmptyParts; [|done].
  apply Forall_forall. intros q [_ Hq]%list_elem_of_filter.
  rewrite Forall_forall in Hp. by apply Hp.
Qed.

Lemma captured_clean (P : QChar → Prop) (k : nat) (st : mstate) :
  clean P st → Forall P (captured k st).
Proof.
  intros [_ Hc]. unfold captured. induction Hc as [|[k' v] caps Hv _ IH]; cbn; [done|].
  by case_bool_decide.
Qed.

Lemma split_clean (P : QChar → Prop) (sep : QChar) (s : QString) :
  Forall P s → Forall (Forall (λ c, P c ∧ c ≠ sep)) (split sep s).
Proof.
  induction 1 as [|c s Hc _ IH]; cbn [split]; [by repeat constructor|].
  destruct (c =? sep) eqn:Heq; [by constructor|].
  apply N.eqb_neq in Heq.
  destruct (split sep s) as [|q qs']; [by repeat constructor|].
  apply Forall_cons in IH as [Hq Hqs]. by repeat constructor.
Qed.

(** The answers a line stores are trimmed and made of characters of the
    line. *)
Lemma assign_values (P : QChar → Prop) (answers numberParts : list QString) :
  Forall (Forall P) answers →
  ∀ i mapping,
    map_Forall (λ _ a, trimmed a = a ∧ Forall P a) mapping →
    map_Forall (λ _ a, trimmed a = a ∧ Forall P a) (assign answers i numberParts mapping).
Proof.
  intros Ha. induction numberParts as [|part parts IH]; intros i mapping Hm; [done|].
  cbn [assign]. apply IH. destruct (toInt part) as [qNum|]; [|done].
  case_bool_decide; [done|]. apply map_Forall_insert_2; [|done].
  split; [apply trimmed_idem|]. apply Forall_trimmed.
  rewrite Forall_forall in Ha.
  destruct (answers !! i) as [a|] eqn:Hi; cbn.
  { apply Ha. by eapply list_elem_of_lookup_2. }
  destruct (last answers) as [a|] eqn:Hl; cbn; [|done].
  apply Ha. rewrite last_lookup in Hl. by eapply list_elem_of_lookup_2.
Qed.

Lemma parseLine_values (P : QChar → Prop) (mapping : gmap Z QString) (rawLine : QString) :
  Forall P rawLine →
  map_Forall (λ _ a, trimmed a = a ∧ Forall P a) mapping →
  map_Forall (λ _ a, trimmed a = a ∧ Forall P a) (parseLine mapping rawLine).
Proof.
  intros Hl Hm. unfold parseLine.
  destruct (isEmpty (trimmed rawLine)); [done|].
  destruct (_ || _); [done|].
  destruct (match_ lineRe (trimmed rawLine)) as [m|] eqn:Hmatch; [|done].
  assert (clean P m) as Hclean.
  { unfold match_ in Hmatch.
    destruct (validUtf16 (trimmed rawLine)); [|done].
    destruct (exec lineRe 0 (trimmed rawLine)) as [[before st]|] eqn:He; [|done].
    cbn in Hmatch. simplify_eq.
    eapply (exec_clean P lineRe (trimmed rawLine) 0 before); [|done].
    by apply Forall_trimmed. }
  assert (Forall P (trimmed (captured 2 m))) as Htoken
    by (by apply Forall_trimmed, captured_clean).
  destruct (isEmpty (trimmed (captured 2 m))); [done|].
  apply assign_values; [|done].
  case_bool_decide; [by repeat constructor|]. by apply split_re_clean.
Qed.

Lemma foldl_parseLine_values (P : QChar → Prop) (lines : list QString) :
  Forall (Forall P) lines →
  ∀ mapping,
    map_Forall (λ _ a, trimmed a = a ∧ Forall P a) mapping →
    map_Forall (λ _ a, trimmed a = a ∧ Forall P a) (foldl parseLine mapping lines).
Proof.
  induction 1 as [|l lines Hl _ IH]; intros mapping Hm; [done|].
  cbn. by apply IH, parseLine_values.
Qed.

(** X10. Every entry of the mapping [parseAnswerText] returns has a
    question number from 1 to 40 and an answer that is trimmed, that is made
    of characters of the text and that holds no line feed. *)
Theorem parseAnswerText_values (text : QString) (q : Z) (a : QString) :
  parseAnswerText text !! q = Some a →
  (1 ≤ q ≤ 40)%Z ∧ trimmed a = a ∧ Forall (λ c, c ∈ text) a ∧ 10 ∉ a.
Proof.
  intros Hq. split; [by apply (parseAnswerText_inRange text q a)|].
  pose proof (foldl_parseLine_values (λ c, c ∈ text ∧ c ≠ 10) (split 10 text)) as Hv.
  destruct (Hv (split_clean (λ c, c ∈ text) 10 text ltac:(by apply Forall_forall))
               ∅ (map_Forall_empty _) q a Hq) as [Ht Ha].
  split_and!; [done| |].
  - eapply Forall_impl; [exact Ha|]. by intros c [? _].
  - intros Hin. rewrite Forall_forall in Ha. by destruct (Ha _ Hin).
Qed.

Lemma parseAnswerText_values_witness :
  (1 ≤ 7 ≤ 40)%Z ∧ trimmed (qs "B") = qs "B"
  ∧ Forall (λ c, c ∈ qs "7 A" ++ [10] ++ qs " 7&8  B ") (qs "B") ∧ 10 ∉ qs "B".
Proof.
  apply (parseAnswerText_values (qs "7 A" ++ [10] ++ qs " 7&8  B ") 7 (qs "B")).
  by vm_compute.
Defined.

Lemma bind_all_nil {A B} (f : A → list B) (l : list A) :
  (∀ x, x ∈ l → f x = []) → l ≫= f = [].
Proof.
  induction l as [|x l IH]; intros Hf; [done|]. cbn.
  rewrite (Hf x) by (by left). cbn. apply IH. intros y Hy. apply Hf. by right.
Qed.

Lemma star_loop_consumes (Q : QChar → Prop) (step : mstate → list mstate) :
  (∀ st st', st' ∈ step st → ∃ k, m_rest st = k ++ m_rest st' ∧ Forall Q k) →
  ∀ fuel st st', st' ∈ star_loop step fuel st →
    ∃ k, m_rest st = k ++ m_rest st' ∧ Forall Q k.
Proof.
  intros Hstep. induction fuel as [|fuel IH]; intros st st' Hin; cbn in Hin.
  - apply list_elem_of_singleton in Hin. subst. by exists [].
  - apply elem_of_app in Hin as [Hin|Hin].
    + apply list_elem_of_bind in Hin as (st1 & Hin & Hin1).
      destruct (Hstep _ _ Hin1) as (k1 & Hk1 & HQ1).
      case_bool_decide.
      * destruct (IH _ _ Hin) as (k2 & Hk2 & HQ2). exists (k1 ++ k2).
        rewrite Hk1, Hk2, app_assoc. split; [done|by apply Forall_app].
      * apply list_elem_of_singleton in Hin. subst. by exists k1.
    + apply list_elem_of_singleton in Hin. subst. by exists [].
Qed.

(** What the matcher has gone over is made of characters of the classes of
    the pattern. *)
Lemma run_consumes (Q : QChar → Prop) (r : pattern) :
  consumes Q r →
  ∀ st st', st' ∈ run r st → ∃ k, m_rest st = k ++ m_rest st' ∧ Forall Q k.
Proof.
  induction r as [p| | |a IHa b IHb|a IHa|n a IHa]; intros Hr st st' Hin; cbn [run] in Hin.
  - destruct st as [pos [|c s] caps]; cbn in Hin; [by apply elem_of_nil in Hin|].
    destruct (p c) eqn:Hc; [|by apply elem_of_nil in Hin].
    apply list_elem_of_singleton in Hin. subst. exists [c]. split; [done|].
    repeat constructor. by apply Hr.
  - case_bool_decide; [|by apply elem_of_nil in Hin].
    apply list_elem_of_singleton in Hin. subst. by exists [].
  - assert (st' = st) as ->; [|by exists []].
    destruct (m_rest st) as [|c l]; [by apply list_elem_of_singleton in Hin|].
    destruct l, c as [|c]; try (by apply elem_of_nil in Hin);
      repeat (destruct c as [c|c|]; cbn in Hin;
              try (by apply elem_of_nil in Hin);
              try (by apply list_elem_of_singleton in Hin)).
  - destruct Hr as [Ha Hb]. apply list_elem_of_bind in Hin as (st1 & Hin & Hin1).
    destruct (IHa Ha _ _ Hin1) as (k1 & Hk1 & HQ1).
    destruct (IHb Hb _ _ Hin) as (k2 & Hk2 & HQ2).
    exists (k1 ++ k2). rewrite Hk1, Hk2, app_assoc. split; [done|by apply Forall_app].
  - eapply star_loop_consumes; [by apply IHa|exact Hin].
  - apply list_elem_of_bind in Hin as (st1 & Hin & Hin1).
    apply list_elem_of_singleton in Hin. subst. cbn [m_rest]. by apply IHa.
Qed.

Lemma numberChar_not_space (c : QChar) : numberChar c = true → re_space c = false.
Proof.
  unfold numberChar, lit. intros [Hd|Ha%N.eqb_eq]%orb_true_iff.
  - by apply digit_not_space.
  - by subst.
Qed.

Lemma stopsAt_after_numbers (k r : QString) :
  Forall (λ c, numberChar c = true) k →
  stopsAt re_space (dropWhile numberChar (k ++ r)) → stopsAt re_space r.
Proof.
  induction 1 as [|c k Hc _ IH]; cbn [app dropWhile].
  - intros Hs c r' ->. cbn in Hs. destruct (numberChar c) eqn:Hc.
    + by apply numberChar_not_space.
    + by apply (Hs c r').
  - by rewrite Hc.
Qed.

(** The line pattern asks for whitespace right after the numbers. *)
Lemma run_lineRe_no_gap (s : QString) :
  stopsAt re_space s → stopsAt re_space (dropWhile numberChar s) →
  run lineRe (MState 0 s []) = [].
Proof.
  intros Hhead Hgap. unfold lineRe.
  rewrite run_seq. apply bind_all_nil. intros st1 H1.
  apply list_elem_of_singleton in H1. subst st1.
  rewrite run_seq. apply bind_all_nil. intros st2 H2.
  destruct (run_consumes (λ c, re_space c = true) (Star (Class re_space))
              ltac:(by intros c) _ _ H2) as (k1 & Hk1 & HQ1).
  cbn [m_rest] in Hk1.
  assert (k1 = []) as ->.
  { destruct HQ1 as [|c k1 Hc _]; [done|]. by rewrite (Hhead c _ Hk1) in Hc. }
  rewrite run_seq. apply bind_all_nil. intros st3 H3.
  destruct (run_consumes (λ c, numberChar c = true) (Capture 1 numbersRe)
              ltac:(cbn; unfold numberChar; repeat split; intros c ->; by rewrite ?orb_true_r)
              _ _ H3) as (k2 & Hk2 & HQ2).
  cbn [app] in Hk1. rewrite Hk1, Hk2 in Hgap.
  apply stopsAt_after_numbers in Hgap; [|done].
  rewrite run_seq.
  assert (run (Plus (Class re_space)) st3 = []) as ->; [|done].
  destruct st3 as [pos [|c r3] caps]; [done|].
  apply run_plus_class_reject. by apply (Hgap c r3).
Qed.

Lemma exec_lineRe_later (s : QString) :
  ∀ pos, pos ≠ 0%nat → exec lineRe pos s = None.
Proof.
  assert (∀ pos l, pos ≠ 0%nat → run lineRe (MState pos l []) = []) as Hrun.
  { intros pos l Hpos. unfold lineRe. rewrite run_seq. cbn [run m_pos].
    by rewrite bool_decide_false. }
  induction s as [|c s IH]; intros pos Hpos; cbn [exec]; rewrite Hrun by done; [done|].
  by rewrite IH.
Qed.

Lemma match_lineRe_no_gap (s : QString) :
  stopsAt re_space s → stopsAt re_space (dropWhile numberChar s) →
  match_ lineRe s = None.
Proof.
  intros Hhead Hgap. unfold match_. destruct (validUtf16 s); [|done].
  destruct s as [|c s]; cbn [exec]; rewrite run_lineRe_no_gap by done; [done|].
  by rewrite exec_lineRe_later.
Qed.

Lemma parseLine_no_gap (mapping : gmap Z QString) (line : QString) :
  stopsAt re_space (dropWhile numberChar (trimmed line)) → parseLine mapping line = mapping.
Proof.
  intros Hgap. apply parseLine_skipped. do 4 right.
  apply match_lineRe_no_gap; [apply trimmed_stops|done].
Qed.

(** X11. A line is a data line only if ASCII whitespace follows its leading
    digits and "&"s.  A line that, once trimmed, goes on after them with
    another character, or ends there, adds nothing to the mapping: so "12",
    "12.A", "12: A b", "1,Paris" and "Yes", and a number followed by a
    no-break space and its answer. *)
Theorem parseAnswerText_needs_gap (line t1 t2 : QString) :
  10 ∉ line →
  stopsAt re_space (dropWhile numberChar (trimmed line)) →
  parseAnswerText line = ∅
  ∧ parseAnswerText (t1 ++ [10] ++ line ++ [10] ++ t2) = parseAnswerText (t1 ++ [10] ++ t2).
Proof.
  intros Hlf Hgap.
  pose proof (λ m, parseLine_no_gap m line Hgap) as Hskip.
  split.
  - by rewrite parseAnswerText_line, Hskip.
  - rewrite !parseAnswerText_app. cbn [app]. rewrite split_app, foldl_app.
    rewrite split_no_sep by done. cbn [foldl]. by rewrite Hskip.
Qed.

Lemma parseAnswerText_needs_gap_witness :
  parseAnswerText (qs " 12: A b") = ∅
  ∧ parseAnswerText (qs "1 B" ++ [10] ++ qs " 12: A b" ++ [10] ++ qs "2 C")
    = parseAnswerText (qs "1 B" ++ [10] ++ qs "2 C").
Proof.
  apply (parseAnswerText_needs_gap (qs " 12: A b") (qs "1 B") (qs "2 C")).
  - apply (bool_decide_unpack _). by vm_compute.
  - intros c s' Hs. vm_compute in Hs. by simplify_eq.
Defined.

Lemma trimmed_between_spaces (lead s trail : QString) :
  Forall (λ c, isSpace c = true) lead → Forall (λ c, isSpace c = true) trail →
  trimmed (lead ++ s ++ trail) = trimmed s.
Proof.
  intros Hlead Htrail.
  assert (rtrim (s ++ trail) = rtrim s) as Hr.
  { unfold rtrim, dropWhileEnd. rewrite reverse_app.
    by rewrite dropWhile_app_l by (by apply Forall_reverse). }
  rewrite !trimmed_rtrim, dropWhile_app_l by done.
  by rewrite <- !ltrim_rtrim, Hr.
Qed.

Lemma foldl_parseLine_trimmed (lines lines' : list QString) :
  Forall2 (λ l l', trimmed l = trimmed l') lines lines' →
  ∀ mapping, foldl parseLine mapping lines = foldl parseLine mapping lines'.
Proof.
  induction 1 as [|l l' lines lines' Hl _ IH]; intros mapping; [done|].
  cbn. rewrite IH. f_equal. unfold parseLine. by rewrite Hl.
Qed.

(** X12. Only the trimmed form of a line counts: two texts whose lines
    agree once trimmed parse to the same mapping.  So whitespace before and
    after a line is ignored, and a text with CR LF line ends parses as the
    text with LF line ends. *)
Theorem parseAnswerText_line_ends (lines lines' : list QString) :
  Forall (λ l, 10 ∉ l) lines → Forall (λ l, 10 ∉ l) lines' →
  Forall2 (λ l l', trimmed l = trimmed l') lines lines' →
  parseAnswerText (joined 10 lines) = parseAnswerText (joined 10 lines')
  ∧ parseAnswerText (joined 10 ((λ l, l ++ [13]) <$> lines))
    = parseAnswerText (joined 10 lines).
Proof.
  assert (∀ ls ls', Forall (λ l, 10 ∉ l) ls → Forall (λ l, 10 ∉ l) ls' →
            Forall2 (λ l l', trimmed l = trimmed l') ls ls' →
            parseAnswerText (joined 10 ls) = parseAnswerText (joined 10 ls')) as Hgen.
  { intros ls ls' Hls Hls' Heq. unfold parseAnswerText.
    destruct Heq as [|l l' ls ls' Hl Heq]; [done|].
    rewrite !split_joined by done. apply foldl_parseLine_trimmed. by constructor. }
  intros Hlf Hlf' Heq. split; [by apply Hgen|].
  apply Hgen; [|done|].
  - apply Forall_fmap. eapply Forall_impl; [exact Hlf|]. cbn. intros l Hl.
    rewrite elem_of_app, list_elem_of_singleton. by intros [?|?].
  - apply Forall2_fmap_l, Forall_Forall2_diag, Forall_forall. intros l _.
    by apply (trimmed_between_spaces [] l [13]); repeat constructor.
Qed.

Lemma parseAnswerText_line_ends_witness :
  parseAnswerText (joined 10 [qs "1  Yes"; qs "2 No"])
  = parseAnswerText (joined 10 [qs "  1  Yes "; [9] ++ qs "2 No"])
  ∧ parseAnswerText (joined 10 [qs "1  Yes" ++ [13]; qs "2 No" ++ [13]])
    = parseAnswerText (joined 10 [qs "1  Yes"; qs "2 No"]).
Proof.
  apply (parseAnswerText_line_ends [qs "1  Yes"; qs "2 No"] [qs "  1  Yes "; [9] ++ qs "2 No"]).
  - repeat constructor; apply (bool_decide_unpack _); by vm_compute.
  - repeat constructor; apply (bool_decide_unpack _); by vm_compute.
  - by repeat constructor.
Defined.

(** ** The score *)

(** X13. For every section name and every count from 0 on, the band is
    between 2.0 and 9.0, it is 9.0 from 39 correct answers on, and it is
    printed as a whole number of half points: a digit, a point, and 0 or
    5. *)
Theorem lookupBand_range (sectionName : QString) (correct : Z) :
  (0 ≤ correct)%Z →
  PrimFloat.leb 2.0 (lookupBand sectionName correct) = true
  ∧ PrimFloat.leb (lookupBand sectionName correct) 9.0 = true
  ∧ ((39 ≤ correct)%Z → lookupBand sectionName correct = 9.0%float)
  ∧ ∃ halves : Z,
      (4 ≤ halves ≤ 18)%Z
      ∧ numberF1 (lookupBand sectionName correct)
        = number (halves / 2) ++ qs "." ++ number (5 * (halves mod 2)).
Proof.
  intros H0. unfold lookupBand.
  destruct (bool_decide (sectionName = qs "Listening"));
    unfold listeningBandTable, readingBandTable, row; cbn [scanTable fst snd];
    repeat case_bool_decide; try lia;
    (split_and!; [reflexivity | reflexivity | intros; first [reflexivity | lia] | half_points]).
Qed.

Lemma lookupBand_range_witness :
  PrimFloat.leb 2.0 (lookupBand (qs "Reading") 27) = true
  ∧ PrimFloat.leb (lookupBand (qs "Reading") 27) 9.0 = true
  ∧ ((39 ≤ 27)%Z → lookupBand (qs "Reading") 27 = 9.0%float)
  ∧ ∃ halves : Z,
      (4 ≤ halves ≤ 18)%Z
      ∧ numberF1 (lookupBand (qs "Reading") 27)
        = number (halves / 2) ++ qs "." ++ number (5 * (halves mod 2)).
Proof. apply (lookupBand_range (qs "Reading") 27). lia. Defined.

(** X14. The first column of a band table holds thresholds: in both
    sections, for every row (minCorrect, band) and every count, the band of
    the count is at least the band of the row exactly when the count is at
    least minCorrect.  So minCorrect is the least number of correct answers
    that reaches the band. *)
Theorem lookupBand_threshold (s : IeltsSection) (i : nat) (minCorrect : Z) (band : float)
    (correct : Z) :
  spec_band_table s !! i = Some (minCorrect, band) →
  PrimFloat.leb band (lookupBand (nameOf s) correct) = true ↔ (minCorrect ≤ correct)%Z.
Proof.
  intros Hrow. rewrite lookupBand_table.
  assert (i < 15)%nat by (apply lookup_lt_Some in Hrow; by destruct s).
  destruct s;
    do 15 (destruct i as [|i];
           [ cbn in Hrow; unfold row in Hrow; simplify_eq;
             unfold spec_band_table, row; cbn [scanTable fst snd];
             repeat case_bool_decide;
             (split; [ intros Hle; first [lia | by vm_compute in Hle]
                     | intros Hc; first [reflexivity | lia] ])
           | ]);
    lia.
Qed.

Lemma lookupBand_threshold_witness :
  PrimFloat.leb 7.0 (lookupBand (qs "Reading") 31) = true ↔ (30 ≤ 31)%Z.
Proof. by apply (lookupBand_threshold Reading 4 30 7.0 31). Defined.

Example numberF1_bands :
  numberF1 (lookupBand (qs "Reading") 27) = qs "6.5"
  ∧ numberF1 (lookupBand (qs "Listening") 40) = qs "9.0"
  ∧ numberF1 (lookupBand (qs "Listening") (-1)) = qs "0.0".
Proof. by vm_compute. Qed.

(** ** The slots of the window *)

Lemma activePanel_cases (w : MainWindow) (sectionName : QString) (panel : SectionPanel) :
  activePanel w = Some (sectionName, panel) →
  (currentIndex w = 1%Z ∧ sectionName = qs "Listening" ∧ panel = listeningPanel_ w)
  ∨ (currentIndex w = 2%Z ∧ sectionName = qs "Reading" ∧ panel = readingPanel_ w).
Proof.
  unfold activePanel. repeat case_bool_decide; intros ?; simplify_eq; auto.
Qed.

Lemma activePanel_setActivePanel (f : Window) (sectionName : QString)
    (panel panel' : SectionPanel) :
  activePanel (stack_ f) = Some (sectionName, panel) →
  activePanel (stack_ (setActivePanel panel' f)) = Some (sectionName, panel').
Proof.
  intros [(Hi & -> & _)|(Hi & -> & _)]%activePanel_cases;
    unfold setActivePanel, activePanel; cbn; rewrite Hi; by cbn.
Qed.

Lemma forallb_isEmpty (keys : list QString) :
  forallb isEmpty keys = true ↔ Forall (λ key, key = []) keys.
Proof.
  induction keys as [|k keys IH]; cbn; [by split|].
  rewrite andb_true_iff, IH, Forall_cons. destruct k; cbn; [tauto|].
  split; by intros [? _].
Qed.

Lemma countEvaluated_key (us ks : list QString) :
  length us = length ks → Exists (λ key, key ≠ []) ks →
  (1 ≤ countEvaluated (zip us ks))%Z.
Proof.
  intros Hlen Hex. revert us Hlen.
  induction Hex as [k ks Hk|k ks _ IH]; intros [|u us] Hlen; try done;
    cbn [zip zip_with]; rewrite countEvaluated_cons; cbn [snd].
  - destruct k; [done|]. cbn. pose proof (count_bounds (zip us ks)). lia.
  - specialize (IH us ltac:(by simplify_eq/=)). destruct (isEmpty k); lia.
Qed.

Lemma evaluate_again (p p' : SectionPanel) (tally : Z * Z) :
  parallel p → evaluate p = Some (p', tally) →
  evaluate p' = Some (p', tally) ∧ parallel p'
  ∧ answerKeys p' = answerKeys p ∧ answers p' = answers p
  ∧ questionCount p' = questionCount p ∧ keysVisible_ p' = keysVisible_ p.
Proof.
  intros Hp He. rewrite evaluate_result in He by done. simplify_eq.
  assert (parallel (relabel ((verdictText ∘ slotVerdict) <$> slots p) p)) as Hp'.
  { apply parallel_relabel; [done|]. by rewrite length_fmap, length_slots. }
  split_and!; try done. by rewrite evaluate_result.
Qed.

Lemma lookupBand_at_least (sectionName : QString) (correct : Z) :
  (0 ≤ correct)%Z → PrimFloat.leb 2.0 (lookupBand sectionName correct) = true.
Proof.
  intros H0. unfold lookupBand.
  destruct (bool_decide (sectionName = qs "Listening")); scan_cases.
Qed.

(** X15. With a section open and a key in at least one of its fields,
    Submit evaluates the panel of the section, leaves the marks in it and
    shows no message; the score line reads
    "<section>: <c>/<n> correct · Band <b>" where c is the number of correct
    answers, n the number of questions of the section, whatever the number
    of keys, and b the band of c with one decimal.  The band shown is 2.0 at
    least: the value 0.0 that [lookupBand] has for a negative count never
    appears. *)
Theorem submitAnswers_score (f : Window) (sectionName : QString) (panel : SectionPanel) :
  activePanel (stack_ f) = Some (sectionName, panel) →
  parallel panel →
  Exists (λ key, key ≠ []) (answerKeys panel) →
  ∃ panel' correct evaluated,
    evaluate panel = Some (panel', (correct, evaluated))
    ∧ submitAnswers f
      = Some (updateScoreLabel
                (sectionName ++ qs ": " ++ number correct ++ qs "/"
                 ++ number (questionCount panel) ++ qs " correct " ++ [183]
                 ++ qs " Band " ++ numberF1 (lookupBand sectionName correct))
                (setActivePanel panel' f), [])
    ∧ activePanel (stack_ (setActivePanel panel' f)) = Some (sectionName, panel')
    ∧ (0 ≤ correct ≤ evaluated)%Z
    ∧ (1 ≤ evaluated ≤ questionCount panel)%Z
    ∧ PrimFloat.leb 2.0 (lookupBand sectionName correct) = true.
Proof.
  intros Hactive Hp Hkey. eexists _, _, _.
  split; [by apply evaluate_result|].
  pose proof (count_bounds (slots panel)) as [Hc He].
  rewrite length_slots in He by done.
  split_and!; try done.
  - unfold submitAnswers. rewrite Hactive.
    destruct (forallb isEmpty (answerKeys panel)) eqn:Hall.
    { apply forallb_isEmpty in Hall. apply Exists_exists in Hkey as (k & Hin & Hk).
      rewrite Forall_forall in Hall. by apply Hall in Hin. }
    rewrite evaluate_result by done. done.
  - by eapply activePanel_setActivePanel.
  - lia.
  - lia.
  - apply countEvaluated_key; [|done]. unfold answers, answerKeys.
    rewrite !length_fmap. by destruct Hp.
  - apply lookupBand_at_least. lia.
Qed.

Lemma submitAnswers_score_witness :
  ∃ panel' correct evaluated,
    evaluate demoPanel = Some (panel', (correct, evaluated))
    ∧ submitAnswers demoForm
      = Some (updateScoreLabel
                (qs "Listening" ++ qs ": " ++ number correct ++ qs "/"
                 ++ number (questionCount demoPanel) ++ qs " correct " ++ [183]
                 ++ qs " Band " ++ numberF1 (lookupBand (qs "Listening") correct))
                (setActivePanel panel' demoForm), [])
    ∧ activePanel (stack_ (setActivePanel panel' demoForm)) = Some (qs "Listening", panel')
    ∧ (0 ≤ correct ≤ evaluated)%Z
    ∧ (1 ≤ evaluated ≤ questionCount demoPanel)%Z
    ∧ PrimFloat.leb 2.0 (lookupBand (qs "Listening") correct) = true.
Proof.
  apply (submitAnswers_score demoForm (qs "Listening") demoPanel);
    [done|by split|by apply Exists_cons_hd].
Defined.

Example submitAnswers_demo :
  ∃ f', submitAnswers demoForm = Some (f', [])
        ∧ scoreLabel_ f' = qs "Listening: 1/3 correct " ++ [183] ++ qs " Band 2.0"
        ∧ statusLabels_ (listeningPanel_ (stack_ f')) = [statusText true; []; statusText false].
Proof. eexists. split; [vm_compute; reflexivity|]. split; vm_compute; reflexivity. Qed.

(** X16. Submit with a section open and no key in any of its fields, blank
    keys included, shows the warning "Missing answer keys" and changes
    nothing: nothing is evaluated, the marks and the score line stay as
    they are. *)
Theorem submitAnswers_needs_keys (f : Window) (sectionName : QString)
    (panel : SectionPanel) :
  activePanel (stack_ f) = Some (sectionName, panel) →
  Forall (λ keyEdit, trimmed keyEdit = []) (keyEdits_ panel) →
  submitAnswers f
  = Some (f, [warning (qs "Missing answer keys")
                (qs "Fill or paste the correct answers before submitting.")]).
Proof.
  intros Hactive Hkeys. unfold submitAnswers. rewrite Hactive.
  assert (forallb isEmpty (answerKeys panel) = true) as ->; [|done].
  apply forallb_isEmpty. unfold answerKeys. by apply Forall_fmap.
Qed.

Lemma submitAnswers_needs_keys_witness :
  submitAnswers {| stack_ := pastedWindow; scoreLabel_ := qs "old"; hideButton_ := [];
                   answersHidden_ := false |}
  = Some ({| stack_ := pastedWindow; scoreLabel_ := qs "old"; hideButton_ := [];
             answersHidden_ := false |},
          [warning (qs "Missing answer keys")
             (qs "Fill or paste the correct answers before submitting.")]).
Proof.
  apply (submitAnswers_needs_keys _ (qs "Listening") pastedPanel); [done|].
  by repeat constructor.
Defined.

(** X17. With no section open (the landing page, where [showLanding]
    leads), Submit, Preview, Clear All, Save Answers and Paste Right Answer
    each show the box "Select a section" and do nothing else: the window
    stays as it is and no file is written. *)
Theorem no_section_no_effect (f : Window) (dialog : option QString)
    (filePath : QString) (opened : bool) :
  activePanel (stack_ f) = None →
  submitAnswers f
  = Some (f, [information (qs "Select a section")
                (qs "Choose Listening or Reading before submitting.")])
  ∧ previewAnswers f
    = [information (qs "Select a section") (qs "Choose Listening or Reading first.")]
  ∧ clearActive f
    = (f, [information (qs "Select a section") (qs "Choose Listening or Reading first.")])
  ∧ pasteAnswerKeys dialog f
    = (f, [information (qs "Select a section") (qs "Choose Listening or Reading first.")])
  ∧ saveAnswers (stack_ f) filePath opened = None
  ∧ saveAnswersBoxes f filePath opened
    = [information (qs "Select a section") (qs "Choose Listening or Reading first.")]
  ∧ activePanel (stack_ (showLanding f)) = None.
Proof.
  intros Hnone.
  unfold submitAnswers, previewAnswers, clearActive, pasteAnswerKeys, saveAnswers,
    saveAnswersBoxes.
  rewrite Hnone. by split_and!.
Qed.

Lemma no_section_no_effect_witness :
  submitAnswers newMainWindow
  = Some (newMainWindow,
          [information (qs "Select a section")
             (qs "Choose Listening or Reading before submitting.")])
  ∧ saveAnswers (stack_ newMainWindow) (qs "a.txt") true = None.
Proof.
  pose proof (no_section_no_effect newMainWindow None (qs "a.txt") true eq_refl)
    as (Hs & _ & _ & _ & Hw & _).
  by split.
Defined.

(** X18. Pressing Submit again changes nothing more: on a window whose
    panels are in order, the window Submit has left is left as it is by a
    second Submit, which shows the same message boxes. *)
Theorem submitAnswers_twice (f f' : Window) (boxes : list MessageBox) :
  wellFormed f → submitAnswers f = Some (f', boxes) →
  submitAnswers f' = Some (f', boxes).
Proof.
  intros ([Hl _] & [Hr _] & _) Hs. unfold submitAnswers in Hs.
  destruct (activePanel (stack_ f)) as [[sectionName panel]|] eqn:Hactive;
    [|simplify_eq; unfold submitAnswers; by rewrite Hactive].
  destruct (forallb isEmpty (answerKeys panel)) eqn:Hall;
    [simplify_eq; unfold submitAnswers; by rewrite Hactive, Hall|].
  assert (parallel panel) as Hp.
  { by destruct (activePanel_cases _ _ _ Hactive) as [(_ & _ & ->)|(_ & _ & ->)]. }
  destruct (evaluate panel) as [[panel' [correct evaluated]]|] eqn:He; [|done].
  cbn in Hs. simplify_eq.
  destruct (evaluate_again _ _ _ Hp He) as (He' & _ & Hkeys & _ & Hcount & _).
  unfold submitAnswers.
  change (stack_ (updateScoreLabel ?t ?g)) with (stack_ g).
  rewrite (activePanel_setActivePanel f sectionName panel panel' Hactive).
  rewrite Hkeys, Hall, He'. cbn. do 2 f_equal.
  destruct (activePanel_cases _ _ _ Hactive) as [(Hi & _)|(Hi & _)];
    unfold updateScoreLabel, setActivePanel; cbn; rewrite Hi; by cbn.
Qed.

Lemma submitAnswers_twice_witness :
  ∃ f', submitAnswers {| stack_ := stack_ (startListening newMainWindow);
                         scoreLabel_ := []; hideButton_ := qs "Hide Answers";
                         answersHidden_ := false |} = Some f'
        ∧ submitAnswers f'.1 = Some f'.
Proof.
  eexists (_, _). split; [reflexivity|].
  apply (submitAnswers_twice
           {| stack_ := stack_ (startListening newMainWindow);
              scoreLabel_ := []; hideButton_ := qs "Hide Answers";
              answersHidden_ := false |}); [|reflexivity].
  by repeat split.
Defined.

(** X19. Clear All with a section open empties every answer and every key
    of that section, clears its marks and the score line, and shows no
    message; a Submit right after it finds no key and shows the warning
    "Missing answer keys". *)
Theorem clearActive_then_submit (f : Window) (sectionName : QString)
    (panel : SectionPanel) :
  activePanel (stack_ f) = Some (sectionName, panel) →
  parallel panel →
  ∃ f' panel',
    clearActive f = (f', [])
    ∧ activePanel (stack_ f') = Some (sectionName, panel')
    ∧ answers panel' = replicate (length (userEdits_ panel)) []
    ∧ answerKeys panel' = replicate (length (userEdits_ panel)) []
    ∧ statusLabels_ panel' = replicate (length (userEdits_ panel)) []
    ∧ scoreLabel_ f' = []
    ∧ submitAnswers f'
      = Some (f', [warning (qs "Missing answer keys")
                     (qs "Fill or paste the correct answers before submitting.")]).
Proof.
  intros Hactive [Hk Hs]. eexists _, _.
  split; [unfold clearActive; by rewrite Hactive|].
  assert (activePanel (stack_ (updateScoreLabel []
            (setActivePanel (clearKeys (clearAnswers panel)) f)))
          = Some (sectionName, clearKeys (clearAnswers panel))) as Hactive'
    by (by eapply activePanel_setActivePanel).
  split_and!; [done|..].
  - unfold answers. cbn.
    by rewrite fmap_empty_replicate, trimmed_replicate_nil.
  - unfold answerKeys. cbn.
    by rewrite fmap_empty_replicate, trimmed_replicate_nil, Hk.
  - cbn. by rewrite fmap_empty_replicate, !length_fmap, Hs.
  - done.
  - unfold submitAnswers. rewrite Hactive'.
    assert (forallb isEmpty (answerKeys (clearKeys (clearAnswers panel))) = true) as ->;
      [|done].
    apply forallb_isEmpty. unfold answerKeys. cbn.
    rewrite fmap_empty_replicate, trimmed_replicate_nil.
    apply Forall_forall. by intros k [-> _]%elem_of_replicate.
Qed.

Lemma clearActive_then_submit_witness :
  ∃ f' panel',
    clearActive demoForm = (f', [])
    ∧ activePanel (stack_ f') = Some (qs "Listening", panel')
    ∧ answers panel' = [[]; []; []]
    ∧ answerKeys panel' = [[]; []; []]
    ∧ statusLabels_ panel' = [[]; []; []]
    ∧ scoreLabel_ f' = []
    ∧ submitAnswers f'
      = Some (f', [warning (qs "Missing answer keys")
                     (qs "Fill or paste the correct answers before submitting.")]).
Proof.
  apply (clearActive_then_submit demoForm (qs "Listening") demoPanel); [done|by split].
Defined.

Lemma parseAnswerText_trimmed (text : QString) (q : Z) (a : QString) :
  parseAnswerText text !! q = Some a → trimmed a = a.
Proof.
  intros Hq.
  pose proof (foldl_parseLine_values (λ _, True) (split 10 text)) as Hv.
  destruct (Hv ltac:(apply Forall_forall; intros l _; by apply Forall_forall)
               ∅ (map_Forall_empty _) q a Hq) as [Ht _].
  done.
Qed.

(** X20. Paste Right Answer with a section open: when the dialog is not
    accepted nothing happens; when no line of the text is a data line the
    warning "No answers detected" is shown and nothing changes; otherwise
    the keys the text gives are written into the key fields of the section,
    the answers stay, the marks and the score line are cleared.  On a panel
    of 40 questions every entry of the text finds its field, which then
    reads as the first 32 code units of the answer, trimmed, and so as the
    answer itself when that is no longer than 32. *)
Theorem pasteAnswerKeys_fills (f : Window) (sectionName : QString)
    (panel : SectionPanel) (text : QString) :
  activePanel (stack_ f) = Some (sectionName, panel) →
  pasteAnswerKeys None f = (f, [])
  ∧ (parseAnswerText text = ∅ →
     pasteAnswerKeys (Some text) f
     = (f, [warning (qs "No answers detected")
              (qs "Make sure the text contains numbered lines.")]))
  ∧ (parseAnswerText text ≠ ∅ →
     ∃ f' panel',
       pasteAnswerKeys (Some text) f = (f', [])
       ∧ panel' = applyParsedAnswers (parseAnswerText text) panel
       ∧ activePanel (stack_ f') = Some (sectionName, panel')
       ∧ scoreLabel_ f' = []
       ∧ answers panel' = answers panel
       ∧ statusLabels_ panel' = replicate (length (statusLabels_ panel)) []
       ∧ (length (keyEdits_ panel) = 40%nat →
          ∀ q a, parseAnswerText text !! q = Some a →
            answerKeys panel' !! Z.to_nat (q - 1) = Some (trimmed (take 32 a))
            ∧ ((length a ≤ 32)%nat → answerKeys panel' !! Z.to_nat (q - 1) = Some a))).
Proof.
  intros Hactive. unfold pasteAnswerKeys. rewrite Hactive. split_and!; [done|..].
  - intros ->. by rewrite bool_decide_true.
  - intros Hne. rewrite bool_decide_false by done. eexists _, _.
    split_and!; try done.
    + by eapply activePanel_setActivePanel.
    + cbn. apply fmap_empty_replicate.
    + intros Hlen q a Hq.
      pose proof (parseAnswerText_inRange text q a Hq) as Hrange.
      unfold kNumQuestions in Hrange.
      assert (answerKeys (applyParsedAnswers (parseAnswerText text) panel)
                !! Z.to_nat (q - 1) = Some (trimmed (take 32 a))) as Hkey.
      { unfold answerKeys. cbn. rewrite list_lookup_fmap, applyLoop_lookup.
        destruct (lookup_lt_is_Some_2 (keyEdits_ panel) (Z.to_nat (q - 1))
                    ltac:(lia)) as [old ->].
        cbn. replace (Z.of_nat (Z.to_nat (q - 1)) + 1)%Z with q by lia.
        by rewrite Hq. }
      split; [done|]. intros Ha. rewrite Hkey, take_ge by done.
      by rewrite (parseAnswerText_trimmed text q a).
Qed.

Lemma pasteAnswerKeys_fills_witness :
  pasteAnswerKeys None (startReading newMainWindow) = (startReading newMainWindow, [])
  ∧ ∃ f' panel',
      pasteAnswerKeys (Some (qs "Passage 1" ++ [10] ++ qs "1&2  TRUE, not given"))
        (startReading newMainWindow) = (f', [])
      ∧ activePanel (stack_ f') = Some (qs "Reading", panel')
      ∧ answerKeys panel' !! 0%nat = Some (qs "TRUE")
      ∧ answerKeys panel' !! 1%nat = Some (qs "not given").
Proof.
  pose proof (pasteAnswerKeys_fills (startReading newMainWindow) (qs "Reading")
                (readingPanel_ (stack_ newMainWindow))
                (qs "Passage 1" ++ [10] ++ qs "1&2  TRUE, not given") eq_refl)
    as (Hnone & _ & Hsome).
  split; [exact Hnone|].
  destruct Hsome as (f' & panel' & Hp & _ & Ha & _ & _ & _ & Hkeys);
    [vm_compute; discriminate|].
  exists f', panel'. split_and!; [exact Hp|exact Ha|..].
  - apply (Hkeys eq_refl 1%Z (qs "TRUE")); [vm_compute; reflexivity|cbn; lia].
  - apply (Hkeys eq_refl 2%Z (qs "not given")); [vm_compute; reflexivity|cbn; lia].
Defined.

Lemma setKeysVisible_same (p : SectionPanel) : setKeysVisible (keysVisible_ p) p = p.
Proof. by destruct p. Qed.

(** X21. Hide Answers flips the flag, sets the text of the button to the
    action it now offers and hides or shows the keys of both panels.  It
    touches no answer, no key and no mark, and Submit finds the same score
    with the keys hidden as with the keys shown.  On a window whose parts
    agree with its flag, pressing the button twice gives the window back. *)
Theorem toggleHideAnswers_keeps_score (f : Window) :
  answersHidden_ (toggleHideAnswers f) = negb (answersHidden_ f)
  ∧ hideButton_ (toggleHideAnswers f)
    = (if answersHidden_ f then qs "Hide Answers" else qs "Show Answers")
  ∧ listeningPanel_ (stack_ (toggleHideAnswers f))
    = setKeysVisible (answersHidden_ f) (listeningPanel_ (stack_ f))
  ∧ readingPanel_ (stack_ (toggleHideAnswers f))
    = setKeysVisible (answersHidden_ f) (readingPanel_ (stack_ f))
  ∧ scoreLabel_ (toggleHideAnswers f) = scoreLabel_ f
  ∧ submitAnswers (toggleHideAnswers f)
    = prod_map toggleHideAnswers id <$> submitAnswers f
  ∧ (wellFormed f → toggleHideAnswers (toggleHideAnswers f) = f).
Proof.
  destruct f as [[idx lp rp] score button hidden].
  split_and!.
  - done.
  - cbn -[qs]. by destruct hidden.
  - cbn -[qs]. by rewrite negb_involutive.
  - cbn -[qs]. by rewrite negb_involutive.
  - done.
  - unfold submitAnswers, activePanel.
    cbn [stack_ toggleHideAnswers applyKeyVisibility currentIndex listeningPanel_
         readingPanel_ answersHidden_].
    repeat case_bool_decide.
    + change (answerKeys (setKeysVisible ?v lp)) with (answerKeys lp).
      destruct (forallb isEmpty (answerKeys lp)); [done|].
      unfold evaluate.
      change (evaluate_loop 0 ?n (setKeysVisible ?v lp, ?t))
        with (evaluate_loop 0 n (prod_map (setKeysVisible v) id (lp, t))).
      rewrite evaluate_loop_visible.
      destruct (evaluate_loop 0 _ _) as [[p' [c e]]|]; [|done].
      cbn -[qs]. unfold setActivePanel, updateScoreLabel. cbn -[qs].
      by rewrite !bool_decide_true by done.
    + change (answerKeys (setKeysVisible ?v rp)) with (answerKeys rp).
      destruct (forallb isEmpty (answerKeys rp)); [done|].
      unfold evaluate.
      change (evaluate_loop 0 ?n (setKeysVisible ?v rp, ?t))
        with (evaluate_loop 0 n (prod_map (setKeysVisible v) id (rp, t))).
      rewrite evaluate_loop_visible.
      destruct (evaluate_loop 0 _ _) as [[p' [c e]]|]; [|done].
      cbn -[qs]. unfold setActivePanel, updateScoreLabel. cbn -[qs].
      by rewrite bool_decide_false, bool_decide_true by done.
    + done.
  - intros ((_ & _ & Hl) & (_ & _ & Hr) & Hb & _). cbn -[qs] in *.
    unfold toggleHideAnswers, applyKeyVisibility. cbn -[qs].
    rewrite !negb_involutive, Hb.
    replace (setKeysVisible (negb hidden) (setKeysVisible hidden lp)) with lp
      by (rewrite <- Hl; by destruct lp).
    replace (setKeysVisible (negb hidden) (setKeysVisible hidden rp)) with rp
      by (rewrite <- Hr; by destruct rp).
    by destruct hidden.
Qed.

Lemma panelOk_sheet (visible : bool) (p p' : SectionPanel) :
  panelOk visible p →
  length (userEdits_ p') = length (userEdits_ p) →
  length (keyEdits_ p') = length (keyEdits_ p) →
  length (statusLabels_ p') = length (statusLabels_ p) →
  keysVisible_ p' = keysVisible_ p →
  panelOk visible p'.
Proof.
  intros ([Hk Hs] & Hn & Hv) Hu' Hk' Hs' Hv'. unfold panelOk, parallel, questionCount in *.
  rewrite Hu', Hk', Hs', Hv'. done.
Qed.

Lemma wellFormed_active (f : Window) (sectionName : QString) (panel : SectionPanel) :
  wellFormed f → activePanel (stack_ f) = Some (sectionName, panel) →
  panelOk (negb (answersHidden_ f)) panel.
Proof.
  intros (Hl & Hr & _) [(_ & _ & ->)|(_ & _ & ->)]%activePanel_cases; done.
Qed.

Lemma wellFormed_setActivePanel (f : Window) (text : QString) (panel : SectionPanel) :
  wellFormed f → panelOk (negb (answersHidden_ f)) panel →
  wellFormed (updateScoreLabel text (setActivePanel panel f)).
Proof.
  intros (Hl & Hr & Hb & Hi) Hp. unfold wellFormed, updateScoreLabel, setActivePanel. cbn.
  repeat case_bool_decide; cbn; done.
Qed.

Lemma wellFormed_setCurrentIndex (f : Window) (text : QString) (idx : Z) :
  wellFormed f → (0 ≤ idx ≤ 2)%Z →
  wellFormed (updateScoreLabel text (setCurrentIndex idx f)).
Proof. intros (Hl & Hr & Hb & _) Hi. by unfold wellFormed. Qed.

Lemma wellFormed_new : wellFormed newMainWindow.
Proof. by repeat split. Qed.

Lemma handle_wellFormed (e : Event) (f f' : Window) (boxes : list MessageBox) :
  wellFormed f → handle e f = Some (f', boxes) → wellFormed f'.
Proof.
  intros Hf He. pose proof Hf as (Hl & Hr & Hb & Hi).
  destruct e as [| | | | | |filePath opened|dialog| |section field i text]; cbn in He.
  - simplify_eq. by apply wellFormed_setCurrentIndex.
  - simplify_eq. by apply wellFormed_setCurrentIndex.
  - simplify_eq. by apply wellFormed_setCurrentIndex.
  - unfold submitAnswers in He.
    destruct (activePanel (stack_ f)) as [[sectionName panel]|] eqn:Hactive;
      [|by simplify_eq].
    pose proof (wellFormed_active _ _ _ Hf Hactive) as Hp.
    destruct (forallb isEmpty (answerKeys panel)); [by simplify_eq|].
    destruct (evaluate panel) as [[panel' [correct evaluated]]|] eqn:Hev; [|done].
    cbn in He. simplify_eq. apply wellFormed_setActivePanel; [done|].
    destruct Hp as (Hpar & Hn & Hv).
    destruct (evaluate_again _ _ _ Hpar Hev) as (_ & Hpar' & _ & _ & Hn' & Hv').
    split_and!; [done|by rewrite Hn'|by rewrite Hv'].
  - by simplify_eq.
  - unfold clearActive in He.
    destruct (activePanel (stack_ f)) as [[sectionName panel]|] eqn:Hactive;
      [|by simplify_eq].
    simplify_eq. apply wellFormed_setActivePanel; [done|].
    eapply panelOk_sheet; [by eapply wellFormed_active|..]; cbn;
      by rewrite ?length_fmap.
  - by simplify_eq.
  - unfold pasteAnswerKeys in He.
    destruct (activePanel (stack_ f)) as [[sectionName panel]|] eqn:Hactive;
      [|by simplify_eq].
    destruct dialog as [text|]; [|by simplify_eq].
    case_bool_decide; [by simplify_eq|].
    simplify_eq. apply wellFormed_setActivePanel; [done|].
    eapply panelOk_sheet; [by eapply wellFormed_active|..]; cbn;
      by rewrite ?length_fmap, ?length_applyLoop.
  - simplify_eq. unfold wellFormed, toggleHideAnswers, applyKeyVisibility. cbn -[qs].
    destruct Hl as (Hlp & Hln & _), Hr as (Hrp & Hrn & _).
    split_and!; try done; try lia. by destruct (answersHidden_ f).
  - simplify_eq. unfold wellFormed, typed.
    destruct section; cbn -[qs]; split_and!; try done; try lia.
    + eapply panelOk_sheet; [exact Hl|..]; destruct field; cbn;
        by rewrite ?length_insert.
    + eapply panelOk_sheet; [exact Hr|..]; destruct field; cbn;
        by rewrite ?length_insert.
Qed.

(** X22. Every window the program can be in is in order: each panel has 40
    questions with one answer field, one key field and one mark each; the
    keys of both panels are hidden exactly when [answersHidden_] is set,
    and the hide button reads "Show Answers" then and "Hide Answers"
    otherwise.  In such a window every slot runs to its end: no loop reads
    a vector outside its bounds. *)
Theorem reachable_wellFormed (f : Window) :
  reachable f →
  wellFormed f ∧ ∀ e, ∃ f' boxes, handle e f = Some (f', boxes) ∧ wellFormed f'.
Proof.
  intros Hreach.
  assert (wellFormed f) as Hf.
  { induction Hreach as [|e f f' boxes _ IH He]; [apply wellFormed_new|].
    by eapply handle_wellFormed. }
  split; [done|]. intros e.
  assert (∃ f' boxes, handle e f = Some (f', boxes)) as (f' & boxes & He).
  { destruct e; cbn; try (by eexists _, _); try (by eexists (_, _).1, (_, _).2).
    - unfold submitAnswers.
      destruct (activePanel (stack_ f)) as [[sectionName panel]|] eqn:Hactive;
        [|by eexists _, _].
      destruct (forallb isEmpty (answerKeys panel)); [by eexists _, _|].
      destruct (wellFormed_active _ _ _ Hf Hactive) as (Hpar & _).
      rewrite evaluate_result by done. by eexists _, _.
    - destruct (clearActive f) as [f' boxes]. by eexists _, _.
    - destruct (pasteAnswerKeys dialog f) as [f' boxes]. by eexists _, _. }
  exists f', boxes. split; [done|]. by eapply handle_wellFormed.
Qed.

Lemma reachable_wellFormed_witness :
  wellFormed (startReading newMainWindow)
  ∧ ∀ e, ∃ f' boxes,
      handle e (startReading newMainWindow) = Some (f', boxes) ∧ wellFormed f'.
Proof.
  apply (reachable_wellFormed (startReading newMainWindow)).
  exact (reachable_step StartReading newMainWindow _ [] reachable_new eq_refl).
Defined.

Lemma previewLines_imap (answers : list QString) :
  ∀ i, previewLines i answers
       = imap (λ j a, qs "Q" ++ number (Z.of_nat (i + j) + 1) ++ qs ": " ++ a) answers.
Proof.
  induction answers as [|a answers IH]; intros i; [done|].
  cbn [previewLines imap]. rewrite Nat.add_0_r, IH. f_equal.
  apply imap_ext. intros j b _. unfold compose.
  by replace (S i + j)%nat with (i + S j)%nat by lia.
Qed.

(** X23. Preview with a section open changes nothing and shows one box,
    titled "Preview", whose text holds one line "Q<n>: <answer>" per
    question, numbered from 1 in the order of the form; the answers are the
    trimmed ones, and a blank answer gives the line "Q<n>: ".  (An answer
    with a line feed in it would spread over more lines.) *)
Theorem previewAnswers_lines (f : Window) (sectionName : QString) (panel : SectionPanel) :
  activePanel (stack_ f) = Some (sectionName, panel) →
  userEdits_ panel ≠ [] →
  Forall (λ a, 10 ∉ a) (answers panel) →
  ∃ text,
    previewAnswers f = [information (qs "Preview") text]
    ∧ split 10 text
      = imap (λ i a, qs "Q" ++ number (Z.of_nat i + 1) ++ qs ": " ++ a) (answers panel)
    ∧ Z.of_nat (length (split 10 text)) = questionCount panel.
Proof.
  intros Hactive Hne Hlf. eexists. split; [unfold previewAnswers; by rewrite Hactive|].
  assert (split 10 (join 10 (previewLines 0 (answers panel)))
          = imap (λ i a, qs "Q" ++ number (Z.of_nat i + 1) ++ qs ": " ++ a)
              (answers panel)) as Hsplit.
  { rewrite previewLines_imap. cbn [Nat.add].
    change (join 10 ?l) with (joined 10 l).
    destruct (imap _ (answers panel)) as [|l ls] eqn:Hlines.
    { apply (f_equal length) in Hlines. rewrite length_imap in Hlines.
      unfold answers in Hlines. rewrite length_fmap in Hlines.
      by destruct (userEdits_ panel). }
    apply split_joined. rewrite <- Hlines. apply Forall_forall.
    intros l0 (i & a & -> & Hi)%elem_of_lookup_imap.
    rewrite Forall_forall in Hlf. pose proof (Hlf a (list_elem_of_lookup_2 _ _ _ Hi)) as Ha.
    change (qs "Q") with [81]. change (qs ": ") with [58; 32].
    rewrite !elem_of_app, list_elem_of_singleton. intros [?|[Hn|[Hc|?]]]; try done.
    - revert Hn. apply number_no_char. unfold isDigit. lia.
    - apply elem_of_cons in Hc as [?|Hc]; [done|].
      by apply list_elem_of_singleton in Hc. }
  split; [done|].
  rewrite Hsplit, length_imap. unfold answers, questionCount. by rewrite length_fmap.
Qed.

Lemma previewAnswers_lines_witness :
  ∃ text,
    previewAnswers demoForm = [information (qs "Preview") text]
    ∧ split 10 text = [qs "Q1: Paris"; qs "Q2: x"; qs "Q3: b"]
    ∧ Z.of_nat (length (split 10 text)) = 3%Z.
Proof.
  apply (previewAnswers_lines demoForm (qs "Listening") demoPanel); [done|done|].
  repeat constructor; apply (bool_decide_unpack _); by vm_compute.
Defined.

(** A session from the start of the program: open Listening, paste two
    keys, type an answer, submit. *)
Example session_demo :
  ∃ f1 f2 f3 f4,
    handle StartListening newMainWindow = Some (f1, [])
    ∧ handle (PasteAnswerKeys (Some (qs "Part 1" ++ [10] ++ qs "1  Paris" ++ [10]
                                      ++ qs "2  well-known"))) f1 = Some (f2, [])
    ∧ handle (Typed Listening UserField 1 (qs "Well known ")) f2 = Some (f3, [])
    ∧ handle SubmitAnswers f3 = Some (f4, [])
    ∧ scoreLabel_ f4 = qs "Listening: 1/40 correct " ++ [183] ++ qs " Band 2.0"
    ∧ take 3 (statusLabels_ (listeningPanel_ (stack_ f4)))
      = [statusText false; statusText true; []].
Proof.
  eexists _, _, _, _. split_and!; [reflexivity|reflexivity|reflexivity|vm_compute; reflexivity|..];
    vm_compute; reflexivity.
Qed.

(** ** The save file is no key list *)

Lemma numberChar_number (n : Z) : Forall (λ c, numberChar c = true) (number n).
Proof.
  eapply Forall_impl; [apply number_digits|]. intros c Hc. unfold isDigit in Hc.
  unfold numberChar, re_digit. apply orb_true_iff. left. by apply in_range_spec.
Qed.

Lemma trimmed_entryLine (n : Z) (a : QString) :
  ∃ rest, trimmed (number n ++ 44 :: a) = number n ++ 44 :: rest.
Proof.
  assert (∃ d ds, number n = d :: ds ∧ isSpace d = false) as (d & ds & Hn & Hd).
  { pose proof (digits_acc_nonempty (N.to_nat (N.log2 (Z.to_N n))) (Z.to_N n) []) as Hne.
    pose proof (number_digits n) as Hdigits. fold (number n) in Hne.
    destruct (number n) as [|d ds]; [done|]. exists d, ds. split; [done|].
    apply Forall_cons in Hdigits as [Hd _]. unfold isDigit in Hd.
    apply not_true_iff_false. rewrite isSpace_spec. lia. }
  exists (rtrim a). rewrite trimmed_rtrim, Hn. cbn [app dropWhile]. rewrite Hd.
  change (d :: ds ++ 44 :: a) with ((d :: ds) ++ 44 :: a).
  assert (rtrim (44 :: a) = 44 :: rtrim a) as H44.
  { unfold rtrim. rewrite dropWhileEnd_cons. by destruct (dropWhileEnd isSpace a). }
  rewrite rtrim_app by (by rewrite H44). by rewrite H44.
Qed.

Lemma parseLine_entryLine (mapping : gmap Z QString) (e : Z * QString) :
  parseLine mapping (entryLine e) = mapping.
Proof.
  apply parseLine_no_gap. unfold entryLine. change (qs ",") with [44]. cbn [app].
  destruct (trimmed_entryLine e.1 e.2) as [rest ->].
  rewrite dropWhile_app_l by apply numberChar_number.
  intros c s' Hs. cbn in Hs. by simplify_eq.
Qed.

(** X24. The file Save Answers writes is not a list of keys for Paste Right
    Answer: in a line "<n>,<answer>" a comma follows the number, where a
    data line has whitespace.  The text of a saved file parses to the empty
    mapping, and pasting it shows the warning "No answers detected" and
    changes nothing. *)
Theorem saved_answers_are_no_keys (f : Window) (sectionName filePath : QString)
    (panel : SectionPanel) :
  activePanel (stack_ f) = Some (sectionName, panel) →
  isEmpty filePath = false →
  Forall (λ a, 10 ∉ a) (answers panel) →
  ∃ text,
    saveAnswers (stack_ f) filePath true = Some text
    ∧ parseAnswerText text = ∅
    ∧ pasteAnswerKeys (Some text) f
      = (f, [warning (qs "No answers detected")
               (qs "Make sure the text contains numbered lines.")]).
Proof.
  intros Hactive Hpath Hlf.
  unfold saveAnswers. rewrite Hactive. bind_some. rewrite Hpath. cbn [negb].
  eexists. split; [done|].
  assert (parseAnswerText (sectionName ++ [10] ++ writeAnswers 0 (answers panel)) = ∅)
    as Hparse.
  { unfold parseAnswerText. cbn [app].
    rewrite split_app_sep by (by eapply activePanel_name).
    rewrite split_writeAnswers by done. cbn [foldl].
    assert (parseLine ∅ sectionName = ∅) as ->.
    { destruct (activePanel_cases _ _ _ Hactive) as [(_ & -> & _)|(_ & -> & _)];
        by vm_compute. }
    rewrite foldl_app. cbn [foldl].
    assert (∀ es m, foldl parseLine m (entryLine <$> es) = m) as ->; [|done].
    induction es as [|e es IH]; intros m; [done|].
    cbn [fmap list_fmap foldl]. by rewrite parseLine_entryLine. }
  split; [done|].
  unfold pasteAnswerKeys. rewrite Hactive, Hparse. by rewrite bool_decide_true.
Qed.

Lemma saved_answers_are_no_keys_witness :
  ∃ text,
    saveAnswers (stack_ demoForm) (qs "a.txt") true = Some text
    ∧ parseAnswerText text = ∅
    ∧ pasteAnswerKeys (Some text) demoForm
      = (demoForm, [warning (qs "No answers detected")
                      (qs "Make sure the text contains numbered lines.")]).
Proof.
  apply (saved_answers_are_no_keys demoForm (qs "Listening") (qs "a.txt") demoPanel);
    [done|done|].
  repeat constructor; apply (bool_decide_unpack _); by vm_compute.
Defined.

(** X25. Save Answers writes a file exactly when a section is open, a path
    was chosen and the file could be opened, and then it shows no box.  When
    the file dialog is cancelled (an empty path) nothing is written and
    nothing is shown; when the file cannot be opened nothing is written and
    the box "Unable to save" names the path. *)
Theorem saveAnswers_outcomes (f : Window) (filePath : QString) (opened : bool) :
  (is_Some (saveAnswers (stack_ f) filePath opened)
   ↔ is_Some (activePanel (stack_ f)) ∧ filePath ≠ [] ∧ opened = true)
  ∧ (is_Some (saveAnswers (stack_ f) filePath opened) →
     saveAnswersBoxes f filePath opened = [])
  ∧ (is_Some (activePanel (stack_ f)) → filePath = [] →
     saveAnswersBoxes f filePath opened = [])
  ∧ (is_Some (activePanel (stack_ f)) → filePath ≠ [] → opened = false →
     saveAnswersBoxes f filePath opened
     = [critical (qs "Unable to save") (qs "Could not write to " ++ filePath)]).
Proof.
  unfold saveAnswers, saveAnswersBoxes.
  destruct (activePanel (stack_ f)) as [[sectionName panel]|]; cbn -[qs].
  - destruct filePath as [|c path], opened; cbn -[qs]; split_and!;
      try done; try (by intros [? ?]); try (by intros [_ [? ?]]);
      try (split; [by intros [? ?]|by intros (_ & ? & ?)]).
  - split_and!; try (by intros [? ?]).
    split; [by intros [? ?]|by intros ([? ?] & _)].
Qed.
